(** * RGB2YCbCr: fixed-point colour conversion checked against a
      floating-point reference

    Shallow embedding of [src/RGB2YCbCr.cpp]:
    - [RGB2YCbCr_smarthls], the streaming fixed-point converter
      (SmartHLS [ap_fixpt<18,12>] arithmetic, FIFO in, FIFO out);
    - [clamp] and [RGB2YCbCr_sw], the floating-point reference
      (IEEE-754 binary32 and binary64 arithmetic, round to nearest even);
    - [compareAndReport] and [main], the tolerance comparator and the
      test bench that sweeps R, G, B over 0..63.

    Floating-point operations are those of the Standard Library's
    [SpecFloat] (the executable IEEE-754 specification borrowed from
    Flocq), instantiated at binary32 (prec 24, emax 128) for C++ [float]
    and binary64 (prec 53, emax 1024) for C++ [double].  Every expression
    is evaluated in the type C++ gives it (no excess precision, no fused
    multiply-add).

    The agreement of the two converters on the swept range is proved by
    error analysis, not by enumeration: each rounding moves a result by
    at most four units in the last place ([Rounding]), the reference
    channels stay within [2^-8] of their exact values ([Reference]), and
    the exact values differ from the fixed-point ones by less than the
    threshold with a margin ([Agreement]). *)

From Stdlib Require Import ZArith List Bool Lia String.
From Stdlib Require Import Floats.SpecFloat.
Import ListNotations.
Local Open Scope Z_scope.

(* ================================================================= *)
(** ** IEEE-754 arithmetic as used by the C++ source *)

Module IEEE.

(** Conversion of an integer to a floating-point format. *)
Definition of_Z (prec emax : Z) (n : Z) : spec_float :=
  binary_normalize prec emax n 0 false.

(** Conversion between formats: [float] to [double] is exact, [double]
    to [float] rounds to nearest even. *)
Definition convert (prec emax : Z) (x : spec_float) : spec_float :=
  match x with
  | S754_finite s m e => binary_normalize prec emax (cond_Zopp s (Zpos m)) e s
  | _ => x
  end.

(** A decimal literal [num/den], correctly rounded: both integers are
    exactly representable and the division rounds once. *)
Definition literal (prec emax : Z) (num den : Z) : spec_float :=
  SFdiv prec emax (of_Z prec emax num) (of_Z prec emax den).

(** Comparison by value.  On finite operands the two numbers
    [m1 * 2^e1] and [m2 * 2^e2] are brought to the common exponent
    [min e1 e2] and compared as integers; the other cases are those of
    [SFcompare].  On valid operands this is [SFcompare]
    ([Canonical.compare_canonical]). *)
Definition compare (x y : spec_float) : option comparison :=
  match x, y with
  | S754_finite s1 m1 e1, S754_finite s2 m2 e2 =>
      let e := Z.min e1 e2 in
      Some (Z.compare (cond_Zopp s1 (Zpos m1) * 2 ^ (e1 - e))
                      (cond_Zopp s2 (Zpos m2) * 2 ^ (e2 - e)))
  | _, _ => SFcompare x y
  end.

(** [x < y]; false as soon as one operand is a NaN. *)
Definition ltb (x y : spec_float) : bool :=
  match compare x y with
  | Some Lt => true
  | _ => false
  end.

(** Truncation toward zero of a finite number. *)
Definition trunc (x : spec_float) : Z :=
  match x with
  | S754_finite s m e => cond_Zopp s (Z.shiftl (Zpos m) e)
  | _ => 0
  end.

(** The value of a finite number times [2^K], an integer as soon as
    [0 <= e + K]. *)
Definition scaled (K : Z) (x : spec_float) : Z :=
  match x with
  | S754_finite s m e => cond_Zopp s (Zpos m * 2 ^ (e + K))
  | _ => 0
  end.

(** [x] is a zero or a finite number written on the grid [2^-K]. *)
Definition on_grid (K : Z) (x : spec_float) : Prop :=
  match x with
  | S754_zero _ => True
  | S754_finite _ _ e => 0 <= e + K
  | _ => False
  end.

End IEEE.

(** C++ [float]: binary32. *)
Module F32.
Definition prec := 24.
Definition emax := 128.
Definition of_int := IEEE.of_Z prec emax.
Definition of_double := IEEE.convert prec emax.
Definition lit := IEEE.literal prec emax.
Definition mul := SFmul prec emax.
Definition add := SFadd prec emax.
Definition sub := SFsub prec emax.
End F32.

(** C++ [double]: binary64. *)
Module F64.
Definition prec := 53.
Definition emax := 1024.
Definition of_int := IEEE.of_Z prec emax.
Definition of_float := IEEE.convert prec emax.
Definition lit := IEEE.literal prec emax.
Definition mul := SFmul prec emax.
Definition add := SFadd prec emax.
Definition sub := SFsub prec emax.
Definition neg := SFopp.
End F64.

(* ================================================================= *)
(** ** SmartHLS fixed point: [ap_fixpt<18, 12>] *)

Module Fixpt.

(** Quantisation applied when a real number is stored into a
    fixed-point type: [AP_TRN] drops the bits below the least
    significant one (toward minus infinity, the library's default),
    [AP_RND] rounds to the nearest multiple of the resolution (ties
    toward plus infinity). *)
Inductive quant_mode : Type := AP_TRN | AP_RND.

(** [typedef ap_fixpt<18, 12> fixpt_t]: 18 bits, 12 of them integer
    bits, hence 6 fractional bits. *)
Definition W : Z := 18.
Definition I_W : Z := 12.
Definition F : Z := W - I_W.

(** A fixed-point number is its raw integer: the value is
    [raw / 2^F]. *)
Definition raw := Z.

(** Two's complement wrap-around on [w] bits ([AP_WRAP]). *)
Definition wrap (w : Z) (x : Z) : Z :=
  (x + 2 ^ (w - 1)) mod 2 ^ w - 2 ^ (w - 1).

(** Modelled from the spec: the constructor of [ap_fixpt] from an
    integer, [fixpt_t(n)], of [hls/ap_fixpt.hpp], which is not part of
    the sources. *)
Definition of_int (n : Z) : raw := wrap W (n * 2 ^ F).

(** Modelled from the spec: the constructor of [ap_fixpt] from a
    [double], [fixpt_t(d)], of [hls/ap_fixpt.hpp], which is not part of
    the sources: [d * 2^F] quantised to an integer, then wrapped on [W]
    bits.  The spec words it as rounding to the nearest multiple of
    1/64 ([AP_RND]); the library's default mode is [AP_TRN].  Both are
    modelled. *)
Definition of_double (q : quant_mode) (d : spec_float) : raw :=
  match d with
  | S754_finite s m e =>
      let sm := cond_Zopp s (Zpos m) in
      wrap W match q with
             | AP_TRN => Z.shiftl sm (e + F)
             | AP_RND => Z.shiftr (Z.shiftl sm (e + F + 1) + 1) 1
             end
  | _ => 0
  end.

(** Modelled from the spec: the arithmetic of [hls/ap_fixpt.hpp], which
    is not part of the sources.  Sums, differences and products are
    formed in a type wide enough to be exact; a product with an
    [ap_uint<8>] keeps the 6 fractional bits. *)
Definition add (x y : raw) : raw := x + y.
Definition sub (x y : raw) : raw := x - y.
Definition mul_uint (x : raw) (n : Z) : raw := x * n.

(** Modelled from the spec: [x >> n] of [hls/ap_fixpt.hpp], an
    arithmetic (sign-extending) shift of the raw bits in the type of
    [x]: the bits shifted out are lost. *)
Definition shr (x : raw) (n : Z) : raw := Z.shiftr x n.

(** Modelled from the spec: assignment of a fixed-point value to an
    [ap_uint<8>] ([hls/ap_fixpt.hpp], [hls/ap_int.hpp]): the fractional
    bits are dropped and the integer part is wrapped on 8 bits. *)
Definition to_uint8 (x : raw) : Z := Z.shiftr x F mod 2 ^ 8.

End Fixpt.

(* ================================================================= *)
(** ** Streaming channel: [hls::FIFO<T>] *)

Module Fifo.
Section Fifo.
Context {T : Type}.

(** Modelled from the spec: [hls::FIFO<T>] of [hls/streaming.hpp], which
    is not part of the sources: a bounded queue of at most [depth]
    items, read in the order they were written. *)
Record t : Type := mk { depth : nat; items : list T }.

Definition create (d : nat) : t := mk d [].

Definition occupancy (f : t) : nat := List.length (items f).

(** Reading an empty channel fails. *)
Definition read (f : t) : option (T * t) :=
  match items f with
  | [] => None
  | x :: rest => Some (x, mk (depth f) rest)
  end.

(** Writing to a full channel fails. *)
Definition write (f : t) (x : T) : option t :=
  if (occupancy f <? depth f)%nat
  then Some (mk (depth f) (items f ++ [x]))
  else None.

End Fifo.
Arguments t : clear implicits.
End Fifo.

(* ================================================================= *)
(** ** The program *)

Definition THRESHOLD : Z := 5.

(** [struct RGB] and [struct YCbCr]: three [ap_uint<8>] fields each. *)
Record RGB : Type := mkRGB { R : Z; G : Z; B : Z }.
Record YCbCr : Type := mkYCbCr { Y : Z; Cb : Z; Cr : Z }.

(** Storing an [int] into an [ap_uint<8>] field. *)
Definition ap_uint8 (n : Z) : Z := n mod 2 ^ 8.

Section FixedPointPath.
Variable q : Fixpt.quant_mode.

(** [fixpt_t(num/den)] for the decimal literal [num/den], a [double]. *)
Definition fixpt_t (num den : Z) : Fixpt.raw :=
  Fixpt.of_double q (F64.lit num den).

(** The three right-hand sides of [RGB2YCbCr_smarthls], before they are
    stored into the 8-bit fields. *)
Definition Y_fixpt (i : RGB) : Fixpt.raw :=
  Fixpt.add
    (Fixpt.add (Fixpt.of_int 4)
       (Fixpt.shr
          (Fixpt.add
             (Fixpt.add (Fixpt.mul_uint (fixpt_t 65738 1000) (R i))
                        (Fixpt.mul_uint (fixpt_t 129057 1000) (G i)))
             (Fixpt.mul_uint (fixpt_t 25064 1000) (B i)))
          8))
    (fixpt_t 1 2).

Definition Cb_fixpt (i : RGB) : Fixpt.raw :=
  Fixpt.add
    (Fixpt.sub (Fixpt.of_int 128)
       (Fixpt.shr
          (Fixpt.sub
             (Fixpt.add (Fixpt.mul_uint (fixpt_t 37945 1000) (R i))
                        (Fixpt.mul_uint (fixpt_t 74494 1000) (G i)))
             (Fixpt.mul_uint (fixpt_t 112439 1000) (B i)))
          8))
    (fixpt_t 1 2).

Definition Cr_fixpt (i : RGB) : Fixpt.raw :=
  Fixpt.add
    (Fixpt.add (Fixpt.of_int 128)
       (Fixpt.shr
          (Fixpt.sub
             (Fixpt.sub (Fixpt.mul_uint (fixpt_t 112439 1000) (R i))
                        (Fixpt.mul_uint (fixpt_t 94154 1000) (G i)))
             (Fixpt.mul_uint (fixpt_t 18285 1000) (B i)))
          8))
    (fixpt_t 1 2).

(** The sample computed from one input sample. *)
Definition convert_fixpt (i : RGB) : YCbCr :=
  {| Y := Fixpt.to_uint8 (Y_fixpt i);
     Cb := Fixpt.to_uint8 (Cb_fixpt i);
     Cr := Fixpt.to_uint8 (Cr_fixpt i) |}.

(** [RGB2YCbCr_smarthls(input_fifo, output_fifo)]: one read, one write.
    The two channels are passed by reference; the function returns
    their new states, or [None] when the read or the write fails. *)
Definition RGB2YCbCr_smarthls
    (input_fifo : Fifo.t RGB) (output_fifo : Fifo.t YCbCr)
  : option (Fifo.t RGB * Fifo.t YCbCr) :=
  match Fifo.read input_fifo with
  | None => None
  | Some (i, input_fifo') =>
      match Fifo.write output_fifo (convert_fixpt i) with
      | None => None
      | Some output_fifo' => Some (input_fifo', output_fifo')
      end
  end.

End FixedPointPath.

(** [std::min(a, b)] is [(b < a) ? b : a]; [std::max(a, b)] is
    [(a < b) ? b : a]. *)
Definition std_min (a b : spec_float) : spec_float :=
  if IEEE.ltb b a then b else a.

Definition std_max (a b : spec_float) : spec_float :=
  if IEEE.ltb a b then b else a.

(** [std::max(0.0f, std::min(255.0f, value))], the argument of the cast
    in [clamp]. *)
Definition saturate (value : spec_float) : spec_float :=
  std_max (S754_zero false) (std_min (F32.of_int 255) value).

(** [static_cast<uint8_t>] of a [float]: the fractional part is
    discarded.  (C++ defines the conversion when the truncated value
    fits in 8 bits; [Clamp.clamp_range] shows that it always does
    here.) *)
Definition static_cast_uint8 (x : spec_float) : Z := IEEE.trunc x.

Definition clamp (value : spec_float) : Z :=
  static_cast_uint8 (saturate value).

(** The three [float] variables of [RGB2YCbCr_sw].  [Y] is computed in
    [float]; [Cb] and [Cr] mix [double] literals with [float] ones, so
    they are computed in [double] and rounded to [float] when stored. *)
Definition Y_float (R G B : Z) : spec_float :=
  F32.add
    (F32.add (F32.mul (F32.lit 299 1000) (F32.of_int R))
             (F32.mul (F32.lit 587 1000) (F32.of_int G)))
    (F32.mul (F32.lit 114 1000) (F32.of_int B)).

Definition Cb_float (R G B : Z) : spec_float :=
  F32.of_double
    (F64.add
       (F64.add
          (F64.sub (F64.mul (F64.neg (F64.lit 169 1000)) (F64.of_int R))
                   (F64.mul (F64.lit 332 1000) (F64.of_int G)))
          (F64.of_float (F32.mul (F32.lit 1 2) (F32.of_int B))))
       (F64.of_int 128)).

Definition Cr_float (R G B : Z) : spec_float :=
  F32.of_double
    (F64.add
       (F64.sub
          (F64.sub (F64.of_float (F32.mul (F32.lit 1 2) (F32.of_int R)))
                   (F64.mul (F64.lit 419 1000) (F64.of_int G)))
          (F64.mul (F64.lit 813 10000) (F64.of_int B)))
       (F64.of_int 128)).

Definition RGB2YCbCr_sw (R G B : Z) : Z * Z * Z :=
  (clamp (Y_float R G B), clamp (Cb_float R G B), clamp (Cr_float R G B)).

(** What the test bench prints. *)
Inductive event : Type :=
| Error_mismatch (label : string) (actual expected diff : Z)
| Summary (mismatches : Z)
| PASS
| FAIL.

(** [compareAndReport]: the printed lines and the returned integer.
    The operands are 8-bit, so the [int] subtraction and [std::abs]
    cannot overflow. *)
Definition compareAndReport (actual expected : Z) (label : string)
    (threshold : Z) : list event * Z :=
  let diff := Z.abs (actual - expected) in
  if threshold <? diff
  then ([Error_mismatch label actual expected diff], 1)
  else ([], 0).

(** The state of the test bench: the two channels in use
    ([expected_fifo] is declared and never used), the error count and
    the lines printed so far. *)
Record bench : Type := mkBench {
  input_fifo : Fifo.t RGB;
  output_fifo : Fifo.t YCbCr;
  err : Z;
  printed : list event
}.

(** [for (int i = lo; ...; i++) body], [n] iterations; a failing
    iteration aborts the loop. *)
Fixpoint for_loop {S : Type} (n : nat) (i : Z) (body : Z -> S -> option S)
    (s : S) : option S :=
  match n with
  | O => Some s
  | S n' =>
      match body i s with
      | None => None
      | Some s' => for_loop n' (i + 1) body s'
      end
  end.

Section TestBench.
Variable q : Fixpt.quant_mode.

(** The three comparisons of one sample, [err += ...] three times. *)
Definition value_check (out : YCbCr) (sw : Z * Z * Z) (e : Z)
    (log : list event) : Z * list event :=
  let '(Ysw, Cbsw, Crsw) := sw in
  let '(l1, r1) := compareAndReport (Y out) Ysw "Y" THRESHOLD in
  let '(l2, r2) := compareAndReport (Cb out) Cbsw "Cb" THRESHOLD in
  let '(l3, r3) := compareAndReport (Cr out) Crsw "Cr" THRESHOLD in
  (e + r1 + r2 + r3, log ++ l1 ++ l2 ++ l3).

(** The body of the innermost loop, for the sample [i]. *)
Definition check_sample (i : RGB) (st : bench) : option bench :=
  match Fifo.write (input_fifo st) i with
  | None => None
  | Some fin =>
      match RGB2YCbCr_smarthls q fin (output_fifo st) with
      | None => None
      | Some (fin', fout) =>
          match Fifo.read fout with
          | None => None
          | Some (out, fout') =>
              let sw := RGB2YCbCr_sw (R i) (G i) (B i) in
              let '(e, log) := value_check out sw (err st) (printed st) in
              Some (mkBench fin' fout' e log)
          end
      end
  end.

Definition loop_body (i j k : Z) (st : bench) : option bench :=
  check_sample (mkRGB (ap_uint8 i) (ap_uint8 j) (ap_uint8 k)) st.

Definition initial : bench :=
  mkBench (Fifo.create 5) (Fifo.create 5) 0 [].

(** The report printed after the loops and the value returned by
    [main]. *)
Definition report (st : bench) : list event * Z :=
  (printed st ++ [Summary (err st); if err st =? 0 then PASS else FAIL],
   err st).

Definition sweep (n : nat) (st : bench) : option bench :=
  for_loop n 0 (fun i =>
    for_loop n 0 (fun j =>
      for_loop n 0 (fun k => loop_body i j k))) st.

(** [main]: the printed lines and the exit status, or [None] when a
    channel operation fails. *)
Definition main : option (list event * Z) :=
  match sweep 64 initial with
  | None => None
  | Some st => Some (report st)
  end.

(** The loop body over an arbitrary input sequence, one sample after
    the other (the spec's harness run over a sequence of samples);
    [main] is the run over [sweep_samples 64]
    ([Bench.sweep_is_run]). *)
Fixpoint run (samples : list RGB) (st : bench) : option bench :=
  match samples with
  | [] => Some st
  | i :: rest =>
      match check_sample i st with
      | None => None
      | Some st' => run rest st'
      end
  end.

(** The error count and the diagnostics of one sample. *)
Definition checked (i : RGB) (e : Z) (log : list event) : Z * list event :=
  value_check (convert_fixpt q i) (RGB2YCbCr_sw (R i) (G i) (B i)) e log.

(** The number of mismatching channels of one sample: 0 to 3. *)
Definition mismatches (i : RGB) : Z := fst (checked i 0 []).

Fixpoint total_mismatches (samples : list RGB) : Z :=
  match samples with
  | [] => 0
  | i :: rest => mismatches i + total_mismatches rest
  end.

End TestBench.

(* ================================================================= *)
(** ** Definitions used by the statements and the proofs *)

(** Between two samples both channels of the bench are empty. *)
Definition idle (st : bench) : Prop :=
  Fifo.items (input_fifo st) = [] /\ Fifo.items (output_fifo st) = [] /\
  (0 < Fifo.depth (input_fifo st))%nat /\ (0 < Fifo.depth (output_fifo st))%nat.

(** The samples of the three nested loops, in the order of the loops. *)
Fixpoint zrange (lo : Z) (n : nat) : list Z :=
  match n with
  | O => []
  | S n' => lo :: zrange (lo + 1) n'
  end.

Definition sweep_samples (n : nat) : list RGB :=
  flat_map (fun i =>
    flat_map (fun j =>
      map (fun k => mkRGB (ap_uint8 i) (ap_uint8 j) (ap_uint8 k)) (zrange 0 n))
      (zrange 0 n)) (zrange 0 n).

(** Two samples agree when each channel differs by at most the
    threshold. *)
Definition within_threshold (out : YCbCr) (sw : Z * Z * Z) : Prop :=
  Z.abs (Y out - fst (fst sw)) <= THRESHOLD /\
  Z.abs (Cb out - snd (fst sw)) <= THRESHOLD /\
  Z.abs (Cr out - snd sw) <= THRESHOLD.

(** The spec's words for the count, written without the comparator and
    the bench: a channel mismatches when the two values differ by more
    than 5; a sample has as many mismatches as it has such channels
    between the fixed-point result and the reference; a sequence has
    the sum over its samples. *)
Definition spec_channel_mismatch (actual expected : Z) : Z :=
  if Z.abs (actual - expected) <=? 5 then 0 else 1.

Definition spec_sample_mismatches (q : Fixpt.quant_mode) (i : RGB) : Z :=
  let out := convert_fixpt q i in
  let '(y, cb, cr) := RGB2YCbCr_sw (R i) (G i) (B i) in
  spec_channel_mismatch (Y out) y
  + spec_channel_mismatch (Cb out) cb
  + spec_channel_mismatch (Cr out) cr.

Definition spec_mismatch_count (q : Fixpt.quant_mode) (samples : list RGB) : Z :=
  fold_right (fun i n => spec_sample_mismatches q i + n) 0 samples.

(** Every finite binary32 or binary64 number is a multiple of
    [2^-1074]. *)
Definition GRID : Z := 1074.

(** The spec's words for the reference narrowing: the value is clamped
    to [0, 255], then its fractional part is dropped.  [x] is read as
    the number [scaled GRID x / 2^GRID]. *)
Definition clamp_then_truncate (x : spec_float) : Z :=
  Z.min (255 * 2 ^ GRID) (Z.max 0 (IEEE.scaled GRID x)) / 2 ^ GRID.

(** The error bound of a format of precision [prec] for numbers below
    [2^Bd], in units of [2^-Sc]: four units in the last place at the top
    of the range. *)
Definition round_error (prec Sc Bd : Z) : Z := 2 ^ (Bd + 2 - prec + Sc).

(** The exact values of the three reference channels, with the
    coefficients the literals denote, times [2^60]. *)
Definition Y_exact (R G B : Z) : Z :=
  10032775 * 2 ^ 35 * R + 9848226 * 2 ^ 36 * G + 15300821 * 2 ^ 33 * B.

Definition Cb_exact (R G B : Z) : Z :=
  - (6088866696204911 * 2 ^ 5) * R - 5980780305148019 * 2 ^ 6 * G
  + 2 ^ 59 * B + 128 * 2 ^ 60.

Definition Cr_exact (R G B : Z) : Z :=
  2 ^ 59 * R - 7548032975472951 * 2 ^ 6 * G
  - 5858282395283541 * 2 ^ 4 * B + 128 * 2 ^ 60.

(** The raw fixed-point coefficients that depend on the quantisation
    mode: the literals times 64, quantised. *)
Definition c129_057 (q : Fixpt.quant_mode) : Z :=
  match q with Fixpt.AP_TRN => 8259 | Fixpt.AP_RND => 8260 end.

Definition c74_494 (q : Fixpt.quant_mode) : Z :=
  match q with Fixpt.AP_TRN => 4767 | Fixpt.AP_RND => 4768 end.

Definition c94_154 (q : Fixpt.quant_mode) : Z :=
  match q with Fixpt.AP_TRN => 6025 | Fixpt.AP_RND => 6026 end.

(* ================================================================= *)
(** ** Definitions used by the further properties *)

(** [n] successive calls of [RGB2YCbCr_smarthls] on the same two
    channels, stopping at the first call that fails. *)
Fixpoint steps (q : Fixpt.quant_mode) (n : nat)
    (fin : Fifo.t RGB) (fout : Fifo.t YCbCr)
  : option (Fifo.t RGB * Fifo.t YCbCr) :=
  match n with
  | O => Some (fin, fout)
  | S n' =>
      match RGB2YCbCr_smarthls q fin fout with
      | None => None
      | Some (fin', fout') => steps q n' fin' fout'
      end
  end.

(** The printed lines that report a mismatch. *)
Definition is_mismatch_line (e : event) : bool :=
  match e with
  | Error_mismatch _ _ _ _ => true
  | _ => false
  end.

(** [forall n, lo <= n < lo + len -> f n = true], decided by
    enumeration. *)
Definition all_in_range (lo : Z) (len : nat) (f : Z -> bool) : bool :=
  forallb f (zrange lo len).

(* ================================================================= *)
(** ** Further properties of the program *)

(** The three formulas of [RGB2YCbCr_sw] with their literals read as
    decimal numbers, times 10000. *)
Definition Y_decimal (R G B : Z) : Z := 2990 * R + 5870 * G + 1140 * B.

Definition Cb_decimal (R G B : Z) : Z :=
  - 1690 * R - 3320 * G + 5000 * B + 1280000.

Definition Cr_decimal (R G B : Z) : Z :=
  5000 * R - 4190 * G - 813 * B + 1280000.

(** [clamp] on numbers times 10000. *)
Definition clamp_decimal (s : Z) : Z := Z.min 2550000 (Z.max 0 s).

(** The three right-hand sides of [RGB2YCbCr_smarthls] with their
    literals read as decimal numbers, times 256000. *)
Definition Y_fixpt_decimal (R G B : Z) : Z :=
  4 * 256000 + (65738 * R + 129057 * G + 25064 * B) + 128000.

Definition Cb_fixpt_decimal (R G B : Z) : Z :=
  128 * 256000 - (37945 * R + 74494 * G - 112439 * B) + 128000.

Definition Cr_fixpt_decimal (R G B : Z) : Z :=
  128 * 256000 + (112439 * R - 94154 * G - 18285 * B) + 128000.

(** The number of mismatch lines among the printed lines. *)
Definition mismatch_lines (log : list event) : Z :=
  Z.of_nat (List.length (filter is_mismatch_line log)).

(** The bench of [main] with channels of depths [din] and [dout]. *)
Definition initial_with (din dout : nat) : bench :=
  mkBench (Fifo.create din) (Fifo.create dout) 0 [].

(* ================================================================= *)
(** ** Rounding: how far a rounded result is from the exact one *)

Module Rounding.

Lemma digits2_pos_bounds (m : positive) :
  2 ^ (Zpos (digits2_pos m) - 1) <= Zpos m < 2 ^ Zpos (digits2_pos m).
Proof.
  induction m as [m IH | m IH |]; cbn [digits2_pos].
  - rewrite Pos2Z.inj_succ, (Pos2Z.inj_xI m).
    replace (Z.succ (Zpos (digits2_pos m)) - 1) with (Z.succ (Zpos (digits2_pos m) - 1)) by lia.
    rewrite 2!Z.pow_succ_r by lia.
    revert IH; generalize (2 ^ (Zpos (digits2_pos m) - 1)) (2 ^ Zpos (digits2_pos m)); lia.
  - rewrite Pos2Z.inj_succ, (Pos2Z.inj_xO m).
    replace (Z.succ (Zpos (digits2_pos m)) - 1) with (Z.succ (Zpos (digits2_pos m) - 1)) by lia.
    rewrite 2!Z.pow_succ_r by lia.
    revert IH; generalize (2 ^ (Zpos (digits2_pos m) - 1)) (2 ^ Zpos (digits2_pos m)); lia.
  - cbn. lia.
Qed.

Lemma shr_1_m (mrs : shr_record) :
  0 <= shr_m mrs -> shr_m (shr_1 mrs) = shr_m mrs / 2.
Proof.
  destruct mrs as [m r s]; cbn [shr_m]; intros Hm.
  destruct m as [| p | p]; [reflexivity | | lia].
  destruct p as [p | p |]; cbn [shr_1 shr_m].
  - rewrite (Pos2Z.inj_xI p). apply Z.div_unique with (r := 1); lia.
  - rewrite (Pos2Z.inj_xO p). apply Z.div_unique with (r := 0); lia.
  - reflexivity.
Qed.

Lemma iter_pos_shr_1_m (p : positive) :
  forall mrs, 0 <= shr_m mrs ->
    shr_m (iter_pos shr_1 p mrs) = shr_m mrs / 2 ^ Zpos p.
Proof.
  assert (Hpos : forall k, 0 < 2 ^ Zpos k) by (intros; apply Z.pow_pos_nonneg; lia).
  induction p as [p IH | p IH |]; intros mrs Hm; cbn [iter_pos].
  - assert (H1 : 0 <= shr_m (shr_1 mrs)).
    { rewrite shr_1_m by assumption. apply Z.div_pos; lia. }
    assert (H2 : 0 <= shr_m (iter_pos shr_1 p (shr_1 mrs))).
    { rewrite IH by assumption. apply Z.div_pos; [assumption | apply Hpos]. }
    rewrite IH, IH, shr_1_m by assumption.
    rewrite (Pos2Z.inj_xI p).
    replace (2 * Zpos p + 1) with (1 + Zpos p + Zpos p) by lia.
    rewrite 2!Z.pow_add_r by lia. change (2 ^ 1) with 2.
    rewrite 2!Z.div_div by (try apply Hpos; pose proof (Hpos p); lia).
    f_equal; ring.
  - assert (H2 : 0 <= shr_m (iter_pos shr_1 p mrs)).
    { rewrite IH by assumption. apply Z.div_pos; [assumption | apply Hpos]. }
    rewrite IH, IH by assumption.
    rewrite (Pos2Z.inj_xO p).
    replace (2 * Zpos p) with (Zpos p + Zpos p) by lia.
    rewrite Z.pow_add_r by lia.
    rewrite Z.div_div by (try apply Hpos; pose proof (Hpos p); lia).
    reflexivity.
  - rewrite shr_1_m by assumption. reflexivity.
Qed.

Lemma round_nearest_even_bounds (m : Z) (l : location) :
  m <= round_nearest_even m l <= m + 1.
Proof.
  destruct l as [| c]; cbn; [lia |].
  destruct c; [destruct (Z.even m) | |]; lia.
Qed.


Lemma pow2_pos (a : Z) : 0 <= a -> 0 < 2 ^ a.
Proof. intros; apply Z.pow_pos_nonneg; lia. Qed.

Lemma pow2_le (a b : Z) : a <= b -> 2 ^ a <= 2 ^ b.
Proof. intros; apply Z.pow_le_mono_r; lia. Qed.

Lemma pow2_lt_inv (a b : Z) : 0 <= b -> 2 ^ a < 2 ^ b -> a < b.
Proof. intros Hb H; apply (Z.pow_lt_mono_r_iff 2); [lia | assumption | assumption]. Qed.

  (** Dropping the [f - e] low bits of [m * 2^e] loses less than one
      unit of [2^f]; everything is scaled by [2^Sc]. *)
Lemma floor_step (m e f Sc : Z) :
  0 <= m -> 0 <= e + Sc -> e < f ->
  let q := m / 2 ^ (f - e) in
  0 <= q /\ q * 2 ^ (f + Sc) <= m * 2 ^ (e + Sc) < (q + 1) * 2 ^ (f + Sc).
Proof.
  intros Hm He Hf q.
  replace (f + Sc) with ((f - e) + (e + Sc)) by lia.
  rewrite Z.pow_add_r by lia.
  pose proof (pow2_pos (f - e) ltac:(lia)) as HN.
  pose proof (pow2_pos (e + Sc) He) as HP.
  pose proof (Z.mul_div_le m _ HN) as H1.
  pose proof (Z.mul_succ_div_gt m _ HN) as H2.
  fold q in H1, H2.
  assert (0 <= q) by (apply Z.div_pos; lia).
  revert H1 H2 HN HP H.
  generalize (2 ^ (f - e)) (2 ^ (e + Sc)); intros N P H1 H2 HN HP Hq.
  split; [assumption | split; nia].
Qed.

  (** The position of the leading bit of a bounded number. *)
Lemma digits_bound (m e Sc Bd : Z) :
  0 < m -> 0 <= e + Sc -> 0 <= Bd + Sc ->
  m * 2 ^ (e + Sc) < 2 ^ (Bd + Sc) ->
  Zdigits2 m + e <= Bd.
Proof.
  intros Hm He HB Hlt.
  destruct m as [| p | p]; try lia. cbn [Zdigits2].
  pose proof (digits2_pos_bounds p) as [Hd _].
  pose proof (pow2_pos (e + Sc) He) as HP.
  assert (H : 2 ^ (Zpos (digits2_pos p) - 1 + (e + Sc)) < 2 ^ (Bd + Sc)).
  { rewrite Z.pow_add_r by lia.
    revert Hd Hlt HP. generalize (2 ^ (Zpos (digits2_pos p) - 1)) (2 ^ (e + Sc)) (2 ^ (Bd + Sc)).
    intros; nia. }
  apply pow2_lt_inv in H; lia.
Qed.

Lemma iter_xO_pow2 (m d : positive) :
  Zpos (Pos.iter xO m d) = Zpos m * 2 ^ Zpos d.
Proof.
  induction d as [| d IH] using Pos.peano_ind.
  - cbn [Pos.iter]. rewrite (Pos2Z.inj_xO m). change (2 ^ 1) with 2. lia.
  - rewrite Pos.iter_succ, Pos2Z.inj_succ, Z.pow_succ_r by lia.
    rewrite (Pos2Z.inj_xO (Pos.iter xO m d)), IH. ring.
Qed.

(** [shl_align] lowers the exponent without changing the number. *)
Lemma shl_align_value (mx : positive) (ex ex' Sc : Z) :
  0 <= Z.min ex ex' + Sc ->
  let mz := fst (shl_align mx ex ex') in
  let ez := snd (shl_align mx ex ex') in
  ez = Z.min ex ex' /\ Zpos mz * 2 ^ (ez + Sc) = Zpos mx * 2 ^ (ex + Sc).
Proof.
  intros Hmin. cbv zeta. unfold shl_align.
  destruct (ex' - ex) as [| d | d] eqn:Hd; cbn [fst snd].
  - split; [lia | reflexivity].
  - split; [lia | reflexivity].
  - split; [lia |]. rewrite iter_xO_pow2, <- Z.mul_assoc, <- Z.pow_add_r by lia.
    do 2 f_equal. lia.
Qed.

Section Format.
Variables prec emax : Z.

(** One [shr_fexp] on an exact number: either nothing moves, or the
    mantissa is divided by a power of two and the exponent becomes
    [fexp]. *)
Lemma shr_fexp_step (m e : Z) :
  0 <= m ->
  let mrs := fst (shr_fexp prec emax m e loc_Exact) in
  let e1 := snd (shr_fexp prec emax m e loc_Exact) in
  let f := SpecFloat.fexp prec emax (Zdigits2 m + e) in
  (f <= e /\ e1 = e /\ shr_m mrs = m /\ loc_of_shr_record mrs = loc_Exact) \/
  (e < f /\ e1 = f /\ shr_m mrs = m / 2 ^ (f - e)).
Proof.
  intros Hm. cbv zeta. unfold shr_fexp, shr.
  destruct (SpecFloat.fexp prec emax (Zdigits2 m + e) - e) as [| p | p] eqn:Hn.
  - left. cbn [fst snd shr_record_of_loc shr_m loc_of_shr_record]. repeat split; lia.
  - right. cbn [fst snd]. rewrite iter_pos_shr_1_m by (cbn; assumption).
    cbn [shr_record_of_loc shr_m]. repeat split; lia.
  - left. cbn. repeat split; lia.
Qed.

Variables Sc K Bd : Z.
Hypothesis Hprec : 0 <= prec.
Hypothesis HK : 0 <= (SpecFloat.emin prec emax) + K.
Hypothesis HSK : K <= Sc.
Hypothesis HBlo : (SpecFloat.emin prec emax) <= Bd - prec.
Hypothesis HBhi : Bd <= emax - prec - 1.

Lemma binary_round_aux_bound (sx : bool) (m : positive) (e : Z) :
  0 <= e + Sc ->
  Zpos m * 2 ^ (e + Sc) < 2 ^ (Bd + Sc) ->
  let r := binary_round_aux prec emax sx (Zpos m) e loc_Exact in
  IEEE.on_grid K r /\
  exists v, 0 <= v /\ IEEE.scaled K r = cond_Zopp sx v /\
            Z.abs (v * 2 ^ (Sc - K) - Zpos m * 2 ^ (e + Sc)) <= round_error prec Sc Bd.
Proof.
  intros He Hlt. cbv zeta. unfold binary_round_aux.
  pose proof (shr_fexp_step (Zpos m) e ltac:(lia)) as H1. cbv zeta in H1.
  destruct (shr_fexp prec emax (Zpos m) e loc_Exact) as [mrs1 e1].
  cbn [fst snd] in H1.
  pose proof (round_nearest_even_bounds (shr_m mrs1) (loc_of_shr_record mrs1)) as Hr1.
  set (r1 := round_nearest_even (shr_m mrs1) (loc_of_shr_record mrs1)) in *.
  pose proof (digits_bound (Zpos m) e Sc Bd ltac:(lia) He ltac:(unfold SpecFloat.emin in *; lia) Hlt) as Hd.
  set (f1 := SpecFloat.fexp prec emax (Zdigits2 (Zpos m) + e)) in *.
  assert (Hf1 : (SpecFloat.emin prec emax) <= f1 <= Bd - prec) by (unfold f1, SpecFloat.fexp; lia).
  set (E := 2 ^ (Bd - prec + Sc)).
  assert (HE : 0 < E) by (apply pow2_pos; lia).
  assert (HeE : round_error prec Sc Bd = 4 * E).
  { unfold round_error, E. replace (Bd + 2 - prec + Sc) with (2 + (Bd - prec + Sc)) by lia.
    rewrite Z.pow_add_r by lia. reflexivity. }
  assert (HEB : E <= 2 ^ (Bd + Sc)) by (apply pow2_le; lia).
  assert (HBB : 2 ^ (Bd + 1 + Sc) = 2 * 2 ^ (Bd + Sc)).
  { replace (Bd + 1 + Sc) with (1 + (Bd + Sc)) by lia. rewrite Z.pow_add_r by lia. reflexivity. }
  assert (HeB : e < Bd).
  { assert (Hp : 2 ^ (e + Sc) < 2 ^ (Bd + Sc)).
    { pose proof (pow2_pos (e + Sc) He). nia. }
    apply pow2_lt_inv in Hp; lia. }
  (* first step *)
  assert (S1 : 0 <= r1 /\ e <= e1 /\ (SpecFloat.emin prec emax) <= e1 /\ e1 <= Bd /\
               Z.abs (r1 * 2 ^ (e1 + Sc) - Zpos m * 2 ^ (e + Sc)) <= E).
  { destruct H1 as [(Hfe & -> & Hq & Hl) | (Hfe & -> & Hq)].
    - assert (r1 = Zpos m) as ->.
      { unfold r1. rewrite Hl, Hq. reflexivity. }
      repeat split; try lia.
    - pose proof (floor_step (Zpos m) e f1 Sc ltac:(lia) He Hfe) as (Hq0 & Hfl).
      cbv zeta in Hq0, Hfl. rewrite <- Hq in Hq0, Hfl.
      assert (HfE : 2 ^ (f1 + Sc) <= E) by (apply pow2_le; lia).
      repeat split; try lia.
      revert Hfl HfE. generalize (2 ^ (f1 + Sc)) (Zpos m * 2 ^ (e + Sc)). intros; nia. }
  destruct S1 as (Hr1pos & Hee1 & Hemin1 & He1B & Herr1).
  clearbody r1. clear H1 Hr1 mrs1.
  (* second step *)
  pose proof (shr_fexp_step r1 e1 Hr1pos) as H2. cbv zeta in H2.
  destruct (shr_fexp prec emax r1 e1 loc_Exact) as [mrs2 e2].
  cbn [fst snd] in H2.
  set (f2 := SpecFloat.fexp prec emax (Zdigits2 r1 + e1)) in *.
  assert (Hf2 : (SpecFloat.emin prec emax) <= f2 <= Bd + 1 - prec).
  { unfold f2, SpecFloat.fexp.
    destruct (Z.eq_dec r1 0) as [-> | Hnz]; [cbn [Zdigits2]; lia |].
    assert (Hd1 : Zdigits2 r1 + e1 <= Bd + 1).
    { apply (digits_bound r1 e1 Sc (Bd + 1)); unfold SpecFloat.emin in *; lia. }
    lia. }
  assert (S2 : 0 <= shr_m mrs2 /\ (SpecFloat.emin prec emax) <= e2 /\ e2 <= emax - prec /\
               Z.abs (shr_m mrs2 * 2 ^ (e2 + Sc) - Zpos m * 2 ^ (e + Sc)) <= 4 * E).
  { destruct H2 as [(Hfe & -> & Hq & Hl) | (Hfe & -> & Hq)].
    - rewrite Hq. repeat split; try lia.
    - pose proof (floor_step r1 e1 f2 Sc Hr1pos ltac:(unfold SpecFloat.emin in *; lia) Hfe) as (Hq0 & Hfl).
      cbv zeta in Hq0, Hfl. rewrite <- Hq in Hq0, Hfl.
      assert (HfE : 2 ^ (f2 + Sc) <= 2 * E).
      { unfold E. replace (2 * 2 ^ (Bd - prec + Sc)) with (2 ^ (1 + (Bd - prec + Sc))).
        - apply pow2_le; lia.
        - rewrite Z.pow_add_r by lia. reflexivity. }
      repeat split; lia. }
  destruct S2 as (Hm2 & Hemin2 & He2 & Herr2).
  destruct (shr_m mrs2) as [| p | p] eqn:Hm2eq; [| | lia].
  - split; [exact I |]. exists 0. split; [lia |]. split; [destruct sx; reflexivity |].
    rewrite HeE. cbn in Herr2 |- *. lia.
  - replace (e2 <=? emax - prec) with true by (symmetry; apply Z.leb_le; lia).
    split; [cbn; lia |].
    exists (Zpos p * 2 ^ (e2 + K)). split.
    + pose proof (pow2_pos (e2 + K) ltac:(lia)). nia.
    + split; [reflexivity |].
      rewrite <- Z.mul_assoc, <- Z.pow_add_r by lia.
      replace (e2 + K + (Sc - K)) with (e2 + Sc) by lia.
      rewrite HeE. exact Herr2.
Qed.

Lemma binary_round_bound (sx : bool) (mx : positive) (ex : Z) :
  0 <= ex + Sc ->
  Zpos mx * 2 ^ (ex + Sc) < 2 ^ (Bd + Sc) ->
  let r := binary_round prec emax sx mx ex in
  IEEE.on_grid K r /\
  exists v, 0 <= v /\ IEEE.scaled K r = cond_Zopp sx v /\
            Z.abs (v * 2 ^ (Sc - K) - Zpos mx * 2 ^ (ex + Sc)) <= round_error prec Sc Bd.
Proof.
  intros He Hlt. cbv zeta. unfold binary_round.
  set (f := SpecFloat.fexp prec emax (Zpos (digits2_pos mx) + ex)).
  assert (Hf : SpecFloat.emin prec emax <= f) by (unfold f, SpecFloat.fexp; lia).
  pose proof (shl_align_value mx ex f Sc ltac:(lia)) as Hs. cbv zeta in Hs.
  destruct (shl_align mx ex f) as [mz ez]. cbn [fst snd] in Hs.
  destruct Hs as [Hez Hval].
  rewrite <- Hval in Hlt |- *.
  apply binary_round_aux_bound; [lia | assumption].
Qed.

Lemma binary_normalize_bound (m e : Z) (szero : bool) :
  0 <= e + Sc ->
  Z.abs m * 2 ^ (e + Sc) < 2 ^ (Bd + Sc) ->
  let r := binary_normalize prec emax m e szero in
  IEEE.on_grid K r /\
  Z.abs (IEEE.scaled K r * 2 ^ (Sc - K) - m * 2 ^ (e + Sc)) <= round_error prec Sc Bd.
Proof.
  intros He Hlt. cbv zeta. unfold binary_normalize.
  destruct m as [| p | p].
  - split; [exact I |]. cbn. unfold round_error. apply Z.pow_nonneg. lia.
  - destruct (binary_round_bound false p e He Hlt) as (Hg & v & Hv & Hs & Hb).
    split; [assumption |]. rewrite Hs. exact Hb.
  - destruct (binary_round_bound true p e He Hlt) as (Hg & v & Hv & Hs & Hb).
    split; [assumption |]. rewrite Hs. cbn [cond_Zopp].
    change (Zneg p) with (- Zpos p).
    replace (- v * 2 ^ (Sc - K) - - Z.pos p * 2 ^ (e + Sc))
      with (- (v * 2 ^ (Sc - K) - Z.pos p * 2 ^ (e + Sc))) by ring.
    rewrite Z.abs_opp. exact Hb.
Qed.
End Format.


Lemma cond_Zopp_mul (s : bool) (a b : Z) :
  cond_Zopp s a * b = cond_Zopp s (a * b).
Proof. destruct s; cbn; ring. Qed.

Lemma abs_cond_Zopp (s : bool) (a : Z) : Z.abs (cond_Zopp s a) = Z.abs a.
Proof. destruct s; cbn; [apply Z.abs_opp | reflexivity]. Qed.

Lemma cond_Zopp_xorb (s t : bool) (a b : Z) :
  cond_Zopp (xorb s t) (a * b) = cond_Zopp s a * cond_Zopp t b.
Proof. destruct s, t; cbn; ring. Qed.

Lemma abs_mul_nonneg (a p : Z) : 0 <= p -> Z.abs a * p = Z.abs (a * p).
Proof. intros Hp. rewrite Z.abs_mul, (Z.abs_eq p) by assumption. reflexivity. Qed.

Section Operations.
Variables prec emax K Bd : Z.
Hypothesis Hprec : 0 <= prec.
Hypothesis HK0 : 0 <= K.
Hypothesis HK : 0 <= SpecFloat.emin prec emax + K.
Hypothesis HBlo : SpecFloat.emin prec emax <= Bd - prec.
Hypothesis HBhi : Bd <= emax - prec - 1.

Lemma round_error_nonneg : 0 <= round_error prec K Bd.
Proof. unfold round_error. apply Z.pow_nonneg. lia. Qed.

Lemma of_Z_bound (n : Z) :
  Z.abs n * 2 ^ K < 2 ^ (Bd + K) ->
  let r := IEEE.of_Z prec emax n in
  IEEE.on_grid K r /\ Z.abs (IEEE.scaled K r - n * 2 ^ K) <= round_error prec K Bd.
Proof.
  intros Hn. cbv zeta. unfold IEEE.of_Z.
  destruct (binary_normalize_bound prec emax K K Bd Hprec HK (Z.le_refl K) HBlo HBhi
              n 0 false ltac:(lia) Hn) as [Hg Hb].
  split; [assumption |].
  rewrite Z.sub_diag, Z.mul_1_r in Hb. exact Hb.
Qed.

Lemma convert_bound (x : spec_float) :
  IEEE.on_grid K x ->
  Z.abs (IEEE.scaled K x) < 2 ^ (Bd + K) ->
  let r := IEEE.convert prec emax x in
  IEEE.on_grid K r /\ Z.abs (IEEE.scaled K r - IEEE.scaled K x) <= round_error prec K Bd.
Proof.
  intros Hg Hx. cbv zeta.
  destruct x as [s | s | | s m e]; cbn [IEEE.on_grid] in Hg; try contradiction.
  - cbn. split; [exact I | apply round_error_nonneg].
  - cbn [IEEE.convert IEEE.scaled] in *.
    rewrite abs_cond_Zopp in Hx.
    destruct (binary_normalize_bound prec emax K K Bd Hprec HK (Z.le_refl K) HBlo HBhi
                (cond_Zopp s (Zpos m)) e s Hg) as [Hg' Hb].
    { rewrite abs_cond_Zopp. cbn [Z.abs].
      rewrite Z.abs_eq in Hx; [exact Hx |].
      apply Z.mul_nonneg_nonneg; [lia | apply Z.pow_nonneg; lia]. }
    split; [assumption |].
    rewrite Z.sub_diag, Z.mul_1_r, cond_Zopp_mul in Hb. exact Hb.
Qed.

(** The exact sum formed by [SFadd] and [SFsub] before rounding. *)
Lemma aligned_sum (sx sy : bool) (mx my : positive) (ex ey : Z) :
  0 <= ex + K -> 0 <= ey + K ->
  let ez := Z.min ex ey in
  cond_Zopp sx (Zpos (fst (shl_align mx ex ez))) * 2 ^ (ez + K) =
    cond_Zopp sx (Zpos mx * 2 ^ (ex + K)) /\
  cond_Zopp sy (Zpos (fst (shl_align my ey ez))) * 2 ^ (ez + K) =
    cond_Zopp sy (Zpos my * 2 ^ (ey + K)).
Proof.
  intros Hx Hy ez.
  pose proof (shl_align_value mx ex ez K) as H1.
  pose proof (shl_align_value my ey ez K) as H2.
  cbv zeta in H1, H2.
  replace (Z.min ex ez) with ez in H1 by (unfold ez; lia).
  replace (Z.min ey ez) with ez in H2 by (unfold ez; lia).
  destruct H1 as [E1 V1]; [unfold ez; lia |].
  destruct H2 as [E2 V2]; [unfold ez; lia |].
  rewrite E1 in V1. rewrite E2 in V2.
  rewrite 2!cond_Zopp_mul, V1, V2. split; reflexivity.
Qed.

Lemma SFadd_bound (x y : spec_float) :
  IEEE.on_grid K x -> IEEE.on_grid K y ->
  Z.abs (IEEE.scaled K x + IEEE.scaled K y) < 2 ^ (Bd + K) ->
  let r := SFadd prec emax x y in
  IEEE.on_grid K r /\
  Z.abs (IEEE.scaled K r - (IEEE.scaled K x + IEEE.scaled K y)) <= round_error prec K Bd.
Proof.
  intros Hx Hy Hb. cbv zeta. pose proof round_error_nonneg as He.
  destruct x as [sx | sx | | sx mx ex]; cbn [IEEE.on_grid] in Hx; try contradiction;
    destruct y as [sy | sy | | sy my ey]; cbn [IEEE.on_grid] in Hy; try contradiction.
  - destruct sx, sy; cbn; split; trivial.
  - cbn [SFadd IEEE.scaled IEEE.on_grid]. split; [assumption |].
    rewrite Z.add_0_l, Z.sub_diag. exact He.
  - cbn [SFadd IEEE.scaled IEEE.on_grid]. split; [assumption |].
    rewrite Z.add_0_r, Z.sub_diag. exact He.
  - cbn [SFadd IEEE.scaled] in *.
    destruct (aligned_sum sx sy mx my ex ey Hx Hy) as [V1 V2]. cbv zeta in V1, V2.
    set (ez := Z.min ex ey) in *.
    destruct (binary_normalize_bound prec emax K K Bd Hprec HK (Z.le_refl K) HBlo HBhi
                (cond_Zopp sx (Zpos (fst (shl_align mx ex ez))) +
                 cond_Zopp sy (Zpos (fst (shl_align my ey ez)))) ez false) as [Hg Hr].
    { unfold ez; lia. }
    { rewrite abs_mul_nonneg by (apply Z.pow_nonneg; unfold ez; lia).
      rewrite Z.mul_add_distr_r, V1, V2. exact Hb. }
    split; [assumption |].
    rewrite Z.sub_diag, Z.mul_1_r, Z.mul_add_distr_r, V1, V2 in Hr. exact Hr.
Qed.

Lemma SFsub_bound (x y : spec_float) :
  IEEE.on_grid K x -> IEEE.on_grid K y ->
  Z.abs (IEEE.scaled K x - IEEE.scaled K y) < 2 ^ (Bd + K) ->
  let r := SFsub prec emax x y in
  IEEE.on_grid K r /\
  Z.abs (IEEE.scaled K r - (IEEE.scaled K x - IEEE.scaled K y)) <= round_error prec K Bd.
Proof.
  intros Hx Hy Hb. cbv zeta. pose proof round_error_nonneg as He.
  destruct x as [sx | sx | | sx mx ex]; cbn [IEEE.on_grid] in Hx; try contradiction;
    destruct y as [sy | sy | | sy my ey]; cbn [IEEE.on_grid] in Hy; try contradiction.
  - destruct sx, sy; cbn; split; trivial.
  - cbn [SFsub IEEE.scaled IEEE.on_grid]. split; [assumption |].
    replace (cond_Zopp (negb sy) (Zpos my * 2 ^ (ey + K)) -
             (0 - cond_Zopp sy (Zpos my * 2 ^ (ey + K)))) with 0
      by (destruct sy; cbn [negb cond_Zopp]; ring).
    exact He.
  - cbn [SFsub IEEE.scaled IEEE.on_grid]. split; [assumption |].
    rewrite Z.sub_0_r, Z.sub_diag. exact He.
  - cbn [SFsub IEEE.scaled] in *.
    destruct (aligned_sum sx sy mx my ex ey Hx Hy) as [V1 V2]. cbv zeta in V1, V2.
    set (ez := Z.min ex ey) in *.
    destruct (binary_normalize_bound prec emax K K Bd Hprec HK (Z.le_refl K) HBlo HBhi
                (cond_Zopp sx (Zpos (fst (shl_align mx ex ez))) -
                 cond_Zopp sy (Zpos (fst (shl_align my ey ez)))) ez false) as [Hg Hr].
    { unfold ez; lia. }
    { rewrite abs_mul_nonneg by (apply Z.pow_nonneg; unfold ez; lia).
      rewrite Z.mul_sub_distr_r, V1, V2. exact Hb. }
    split; [assumption |].
    rewrite Z.sub_diag, Z.mul_1_r, Z.mul_sub_distr_r, V1, V2 in Hr. exact Hr.
Qed.

Lemma SFmul_bound (x y : spec_float) :
  IEEE.on_grid K x -> IEEE.on_grid K y ->
  Z.abs (IEEE.scaled K x * IEEE.scaled K y) < 2 ^ (Bd + K) * 2 ^ K ->
  let r := SFmul prec emax x y in
  IEEE.on_grid K r /\
  Z.abs (IEEE.scaled K r * 2 ^ K - IEEE.scaled K x * IEEE.scaled K y) <= round_error prec K Bd * 2 ^ K.
Proof.
  intros Hx Hy Hb. cbv zeta.
  assert (He : 0 <= round_error prec K Bd * 2 ^ K).
  { apply Z.mul_nonneg_nonneg; [apply round_error_nonneg | apply Z.pow_nonneg; lia]. }
  destruct x as [sx | sx | | sx mx ex]; cbn [IEEE.on_grid] in Hx; try contradiction;
    destruct y as [sy | sy | | sy my ey]; cbn [IEEE.on_grid] in Hy; try contradiction;
    try (cbn [SFmul IEEE.scaled IEEE.on_grid]; split; [exact I |];
         rewrite ?Z.mul_0_l, ?Z.mul_0_r; exact He).
  cbn [SFmul IEEE.scaled] in *.
  assert (Hprod : Zpos (mx * my) * 2 ^ (ex + ey + (K + K)) =
                  (Zpos mx * 2 ^ (ex + K)) * (Zpos my * 2 ^ (ey + K))).
  { replace (ex + ey + (K + K)) with ((ex + K) + (ey + K)) by lia.
    rewrite Z.pow_add_r, Pos2Z.inj_mul by lia. ring. }
  assert (HEE : round_error prec (K + K) Bd = round_error prec K Bd * 2 ^ K).
  { unfold round_error. rewrite <- Z.pow_add_r by (unfold SpecFloat.emin in *; lia).
    f_equal. lia. }
  destruct (binary_round_aux_bound prec emax (K + K) K Bd Hprec HK ltac:(lia) HBlo HBhi
              (xorb sx sy) (mx * my)%positive (ex + ey)) as (Hg & v & Hv & Hs & Hr).
  { lia. }
  { rewrite Hprod. rewrite <- cond_Zopp_xorb, abs_cond_Zopp, Z.abs_eq in Hb.
    - replace (Bd + (K + K)) with (Bd + K + K) by lia.
      rewrite (Z.pow_add_r 2 (Bd + K) K) by lia.
      exact Hb.
    - apply Z.mul_nonneg_nonneg; apply Z.mul_nonneg_nonneg; try lia; apply Z.pow_nonneg; lia. }
  split; [assumption |].
  rewrite Hs, <- cond_Zopp_xorb, cond_Zopp_mul.
  replace (K + K - K) with K in Hr by lia. rewrite HEE, Hprod in Hr.
  destruct (xorb sx sy); cbn [cond_Zopp]; [| exact Hr].
  replace (- (v * 2 ^ K) - - (Zpos mx * 2 ^ (ex + K) * (Zpos my * 2 ^ (ey + K))))
    with (- (v * 2 ^ K - Zpos mx * 2 ^ (ex + K) * (Zpos my * 2 ^ (ey + K)))) by ring.
  rewrite Z.abs_opp. exact Hr.
Qed.

End Operations.

End Rounding.

(* ================================================================= *)
(** ** Comparison, truncation and saturation on a grid *)

Module Grid.

Lemma scaled_finite_pos (K : Z) (m : positive) (e : Z) :
  0 <= e + K -> 0 < Zpos m * 2 ^ (e + K).
Proof. intros H. pose proof (Rounding.pow2_pos (e + K) H). nia. Qed.

Lemma compare_on_grid (K : Z) (x y : spec_float) :
  IEEE.on_grid K x -> IEEE.on_grid K y ->
  IEEE.compare x y = Some (IEEE.scaled K x ?= IEEE.scaled K y).
Proof.
  intros Hx Hy.
  destruct x as [sx | sx | | sx mx ex]; cbn [IEEE.on_grid] in Hx; try contradiction;
    destruct y as [sy | sy | | sy my ey]; cbn [IEEE.on_grid] in Hy; try contradiction;
    cbn [IEEE.compare SFcompare IEEE.scaled].
  - reflexivity.
  - pose proof (scaled_finite_pos K my ey Hy) as Hp.
    destruct sy; cbn [cond_Zopp]; f_equal; symmetry.
    + apply Z.compare_gt_iff. lia.
    + apply Z.compare_lt_iff. lia.
  - pose proof (scaled_finite_pos K mx ex Hx) as Hp.
    destruct sx; cbn [cond_Zopp]; f_equal; symmetry.
    + apply Z.compare_lt_iff. lia.
    + apply Z.compare_gt_iff. lia.
  - cbv zeta. f_equal.
    set (e := Z.min ex ey).
    pose proof (Rounding.pow2_pos (e + K) ltac:(unfold e; lia)) as Hp.
    rewrite (Zmult_compare_compat_r _ _ (2 ^ (e + K))) by lia.
    rewrite <- 2!Rounding.cond_Zopp_mul, <- 2!Z.mul_assoc, <- 2!Z.pow_add_r
      by (unfold e; lia).
    replace (ex - e + (e + K)) with (ex + K) by lia.
    replace (ey - e + (e + K)) with (ey + K) by lia.
    reflexivity.
Qed.

Lemma ltb_on_grid (K : Z) (x y : spec_float) :
  IEEE.on_grid K x -> IEEE.on_grid K y ->
  IEEE.ltb x y = (IEEE.scaled K x <? IEEE.scaled K y).
Proof.
  intros Hx Hy. unfold IEEE.ltb, Z.ltb.
  rewrite (compare_on_grid K x y Hx Hy).
  destruct (IEEE.scaled K x ?= IEEE.scaled K y); reflexivity.
Qed.

(** Truncation is the floor of a non-negative value. *)
Lemma trunc_on_grid (K : Z) (x : spec_float) :
  0 <= K -> IEEE.on_grid K x -> 0 <= IEEE.scaled K x ->
  IEEE.trunc x = IEEE.scaled K x / 2 ^ K.
Proof.
  intros HK Hx Hv.
  destruct x as [sx | sx | | sx mx ex]; cbn [IEEE.on_grid] in Hx; try contradiction.
  - reflexivity.
  - cbn [IEEE.trunc IEEE.scaled] in *.
    pose proof (scaled_finite_pos K mx ex Hx) as Hp.
    destruct sx; cbn [cond_Zopp] in *; [lia |].
    destruct (Z.le_gt_cases 0 ex) as [He | He].
    + rewrite Z.shiftl_mul_pow2, Z.pow_add_r, Z.mul_assoc, Z.div_mul by
        (try apply Z.pow_nonzero; lia).
      reflexivity.
    + rewrite Z.shiftl_div_pow2 by lia.
      replace K with ((ex + K) + - ex) at 2 by lia.
      rewrite (Z.pow_add_r 2 (ex + K) (- ex)) by lia.
      rewrite (Z.mul_comm (2 ^ (ex + K))), Z.div_mul_cancel_r by (apply Z.pow_nonzero; lia).
      reflexivity.
Qed.

End Grid.

(* ================================================================= *)
(** ** The reference converter on the grid [2^-1074] *)

Module Reference.

(** The literals of [RGB2YCbCr_sw]. *)
Lemma lit_0_299f : F32.lit 299 1000 = S754_finite false 10032775 (-25).
Proof. vm_compute. reflexivity. Qed.
Lemma lit_0_587f : F32.lit 587 1000 = S754_finite false 9848226 (-24).
Proof. vm_compute. reflexivity. Qed.
Lemma lit_0_114f : F32.lit 114 1000 = S754_finite false 15300821 (-27).
Proof. vm_compute. reflexivity. Qed.
Lemma lit_0_5f : F32.lit 1 2 = S754_finite false 8388608 (-24).
Proof. vm_compute. reflexivity. Qed.
Lemma lit_0_169 : F64.lit 169 1000 = S754_finite false 6088866696204911 (-55).
Proof. vm_compute. reflexivity. Qed.
Lemma lit_0_332 : F64.lit 332 1000 = S754_finite false 5980780305148019 (-54).
Proof. vm_compute. reflexivity. Qed.
Lemma lit_0_419 : F64.lit 419 1000 = S754_finite false 7548032975472951 (-54).
Proof. vm_compute. reflexivity. Qed.
Lemma lit_0_0813 : F64.lit 813 10000 = S754_finite false 5858282395283541 (-56).
Proof. vm_compute. reflexivity. Qed.
Lemma lit_255f : F32.of_int 255 = S754_finite false 16711680 (-16).
Proof. vm_compute. reflexivity. Qed.

Ltac format_side :=
  unfold SpecFloat.emin, F32.prec, F32.emax, F64.prec, F64.emax, GRID; lia.

(** The bounds are stated with the grid unit split as
    [2^GRID = 2^60 * U]: a value [v] of the grid stands for the number
    [v / (2^60 * U)].  Keeping [U] abstract keeps the arithmetic on small
    numbers; [Agreement.unit_split] instantiates it. *)
Section Units.
Variable U : Z.
Hypothesis HU : 2 ^ GRID = 2 ^ 60 * U.

Lemma U_pos : 0 < U.
Proof.
  pose proof (Rounding.pow2_pos GRID ltac:(unfold GRID; lia)) as H.
  rewrite HU in H. lia.
Qed.

Lemma pow_K (e : Z) : -60 <= e -> 2 ^ (e + GRID) = 2 ^ (e + 60) * U.
Proof.
  intros He.
  apply (Z.mul_reg_l _ _ (2 ^ 60)); [lia |].
  rewrite (Z.mul_comm (2 ^ (e + 60))), Z.mul_assoc, <- HU.
  rewrite <- 2!Z.pow_add_r by (unfold GRID; lia).
  f_equal. lia.
Qed.

Lemma eps32_U : round_error F32.prec GRID 10 = 2 ^ 48 * U.
Proof.
  unfold round_error, F32.prec.
  replace (10 + 2 - 24 + GRID) with (-12 + GRID) by lia.
  rewrite pow_K by lia. reflexivity.
Qed.

Lemma eps64_U : round_error F64.prec GRID 10 = 2 ^ 19 * U.
Proof.
  unfold round_error, F64.prec.
  replace (10 + 2 - 53 + GRID) with (-41 + GRID) by lia.
  rewrite pow_K by lia. reflexivity.
Qed.

Lemma range_U : 2 ^ (10 + GRID) = 2 ^ 70 * U.
Proof. rewrite pow_K by lia. reflexivity. Qed.

Lemma scaled_const (s : bool) (m : positive) (e : Z) :
  -60 <= e ->
  IEEE.scaled GRID (S754_finite s m e) = cond_Zopp s (Zpos m * 2 ^ (e + 60)) * U.
Proof.
  intros He. cbn [IEEE.scaled]. rewrite pow_K by assumption.
  rewrite Rounding.cond_Zopp_mul. f_equal. ring.
Qed.

Lemma of_int_bound (prec emax : Z) (n : Z) :
  0 <= prec -> 0 <= SpecFloat.emin prec emax + GRID ->
  SpecFloat.emin prec emax <= 10 - prec -> 10 <= emax - prec - 1 ->
  Z.abs n < 1024 ->
  IEEE.on_grid GRID (IEEE.of_Z prec emax n) /\
  Z.abs (IEEE.scaled GRID (IEEE.of_Z prec emax n) - 2 ^ 60 * (n * U))
    <= round_error prec GRID 10.
Proof.
  intros H1 H2 H3 H4 Hn. pose proof U_pos as HUp.
  destruct (Rounding.of_Z_bound prec emax GRID 10 H1 ltac:(unfold GRID; lia) H2 H3 H4 n)
    as [Hg He].
  - rewrite range_U, HU.
    replace (2 ^ 70 * U) with (1024 * (2 ^ 60 * U)) by lia.
    apply Z.mul_lt_mono_pos_r; lia.
  - split; [assumption |].
    rewrite HU in He.
    replace (2 ^ 60 * (n * U)) with (n * (2 ^ 60 * U)) by ring. exact He.
Qed.

Lemma F32_of_int_bound (n : Z) :
  Z.abs n < 1024 ->
  IEEE.on_grid GRID (F32.of_int n) /\
  Z.abs (IEEE.scaled GRID (F32.of_int n) - 2 ^ 60 * (n * U)) <= 2 ^ 48 * U.
Proof.
  intros Hn. rewrite <- eps32_U.
  apply (of_int_bound F32.prec F32.emax); format_side.
Qed.

Lemma F64_of_int_bound (n : Z) :
  Z.abs n < 1024 ->
  IEEE.on_grid GRID (F64.of_int n) /\
  Z.abs (IEEE.scaled GRID (F64.of_int n) - 2 ^ 60 * (n * U)) <= 2 ^ 19 * U.
Proof.
  intros Hn. rewrite <- eps64_U.
  apply (of_int_bound F64.prec F64.emax); format_side.
Qed.

(** A product by a constant of value [c / 2^60]. *)
Lemma mul_const_bound (prec emax : Z) (x y : spec_float) (c : Z) :
  0 <= prec -> 0 <= SpecFloat.emin prec emax + GRID ->
  SpecFloat.emin prec emax <= 10 - prec -> 10 <= emax - prec - 1 ->
  IEEE.on_grid GRID x -> IEEE.scaled GRID x = c * U -> IEEE.on_grid GRID y ->
  Z.abs (c * IEEE.scaled GRID y) < 2 ^ 130 * U ->
  IEEE.on_grid GRID (SFmul prec emax x y) /\
  Z.abs (2 ^ 60 * IEEE.scaled GRID (SFmul prec emax x y) - c * IEEE.scaled GRID y) * U
    <= round_error prec GRID 10 * (2 ^ 60 * U).
Proof.
  intros H1 H2 H3 H4 Hx Hc Hy Hb. pose proof U_pos as HUp.
  destruct (Rounding.SFmul_bound prec emax GRID 10 H1 ltac:(unfold GRID; lia) H2 H3 H4 x y Hx Hy)
    as [Hg He].
  - rewrite range_U, HU, Hc.
    replace (c * U * IEEE.scaled GRID y) with (c * IEEE.scaled GRID y * U) by ring.
    rewrite <- Rounding.abs_mul_nonneg by lia.
    replace (2 ^ 70 * U * (2 ^ 60 * U)) with (2 ^ 130 * U * U) by ring.
    apply Z.mul_lt_mono_pos_r; assumption.
  - split; [assumption |].
    rewrite HU, Hc in He.
    rewrite Rounding.abs_mul_nonneg by lia.
    replace ((2 ^ 60 * IEEE.scaled GRID (SFmul prec emax x y) - c * IEEE.scaled GRID y) * U)
      with (IEEE.scaled GRID (SFmul prec emax x y) * (2 ^ 60 * U) - c * U * IEEE.scaled GRID y)
      by ring.
    exact He.
Qed.

Lemma F32_mul_bound (x y : spec_float) (c : Z) :
  IEEE.on_grid GRID x -> IEEE.scaled GRID x = c * U -> IEEE.on_grid GRID y ->
  Z.abs (c * IEEE.scaled GRID y) < 2 ^ 130 * U ->
  IEEE.on_grid GRID (F32.mul x y) /\
  Z.abs (2 ^ 60 * IEEE.scaled GRID (F32.mul x y) - c * IEEE.scaled GRID y) <= 2 ^ 108 * U.
Proof.
  intros Hx Hc Hy Hb. pose proof U_pos as HUp.
  destruct (mul_const_bound F32.prec F32.emax x y c) as [Hg He];
    try format_side; try assumption.
  split; [assumption |].
  rewrite eps32_U in He.
  apply (Z.mul_le_mono_pos_r _ _ U HUp).
  replace (2 ^ 108 * U * U) with (2 ^ 48 * U * (2 ^ 60 * U)) by ring. exact He.
Qed.

Lemma F64_mul_bound (x y : spec_float) (c : Z) :
  IEEE.on_grid GRID x -> IEEE.scaled GRID x = c * U -> IEEE.on_grid GRID y ->
  Z.abs (c * IEEE.scaled GRID y) < 2 ^ 130 * U ->
  IEEE.on_grid GRID (F64.mul x y) /\
  Z.abs (2 ^ 60 * IEEE.scaled GRID (F64.mul x y) - c * IEEE.scaled GRID y) <= 2 ^ 79 * U.
Proof.
  intros Hx Hc Hy Hb. pose proof U_pos as HUp.
  destruct (mul_const_bound F64.prec F64.emax x y c) as [Hg He];
    try format_side; try assumption.
  split; [assumption |].
  rewrite eps64_U in He.
  apply (Z.mul_le_mono_pos_r _ _ U HUp).
  replace (2 ^ 79 * U * U) with (2 ^ 19 * U * (2 ^ 60 * U)) by ring. exact He.
Qed.

Lemma F32_add_bound (x y : spec_float) :
  IEEE.on_grid GRID x -> IEEE.on_grid GRID y ->
  Z.abs (IEEE.scaled GRID x + IEEE.scaled GRID y) < 2 ^ 70 * U ->
  IEEE.on_grid GRID (F32.add x y) /\
  Z.abs (IEEE.scaled GRID (F32.add x y) - (IEEE.scaled GRID x + IEEE.scaled GRID y))
    <= 2 ^ 48 * U.
Proof.
  intros Hx Hy Hb. rewrite <- eps32_U, <- range_U in *.
  apply (Rounding.SFadd_bound F32.prec F32.emax GRID 10); try format_side; assumption.
Qed.

Lemma F64_add_bound (x y : spec_float) :
  IEEE.on_grid GRID x -> IEEE.on_grid GRID y ->
  Z.abs (IEEE.scaled GRID x + IEEE.scaled GRID y) < 2 ^ 70 * U ->
  IEEE.on_grid GRID (F64.add x y) /\
  Z.abs (IEEE.scaled GRID (F64.add x y) - (IEEE.scaled GRID x + IEEE.scaled GRID y))
    <= 2 ^ 19 * U.
Proof.
  intros Hx Hy Hb. rewrite <- eps64_U, <- range_U in *.
  apply (Rounding.SFadd_bound F64.prec F64.emax GRID 10); try format_side; assumption.
Qed.

Lemma F64_sub_bound (x y : spec_float) :
  IEEE.on_grid GRID x -> IEEE.on_grid GRID y ->
  Z.abs (IEEE.scaled GRID x - IEEE.scaled GRID y) < 2 ^ 70 * U ->
  IEEE.on_grid GRID (F64.sub x y) /\
  Z.abs (IEEE.scaled GRID (F64.sub x y) - (IEEE.scaled GRID x - IEEE.scaled GRID y))
    <= 2 ^ 19 * U.
Proof.
  intros Hx Hy Hb. rewrite <- eps64_U, <- range_U in *.
  apply (Rounding.SFsub_bound F64.prec F64.emax GRID 10); try format_side; assumption.
Qed.

Lemma F32_of_double_bound (x : spec_float) :
  IEEE.on_grid GRID x ->
  Z.abs (IEEE.scaled GRID x) < 2 ^ 70 * U ->
  IEEE.on_grid GRID (F32.of_double x) /\
  Z.abs (IEEE.scaled GRID (F32.of_double x) - IEEE.scaled GRID x) <= 2 ^ 48 * U.
Proof.
  intros Hx Hb. rewrite <- eps32_U, <- range_U in *.
  apply (Rounding.convert_bound F32.prec F32.emax GRID 10); try format_side; assumption.
Qed.

Lemma F64_of_float_bound (x : spec_float) :
  IEEE.on_grid GRID x ->
  Z.abs (IEEE.scaled GRID x) < 2 ^ 70 * U ->
  IEEE.on_grid GRID (F64.of_float x) /\
  Z.abs (IEEE.scaled GRID (F64.of_float x) - IEEE.scaled GRID x) <= 2 ^ 19 * U.
Proof.
  intros Hx Hb. rewrite <- eps64_U, <- range_U in *.
  apply (Rounding.convert_bound F64.prec F64.emax GRID 10); try format_side; assumption.
Qed.


(** One operation of a chain: apply the bound [lem], discharge its
    range condition from the bounds gathered so far, and name the
    result. *)
Ltac name_result G E :=
  let z := fresh "z" in
  apply Z.abs_le in E; revert G E;
  match goal with
  | |- IEEE.on_grid _ ?t -> _ => generalize t; intros z G E
  end.

Ltac chain_int lem n :=
  let G := fresh "G" in
  let E := fresh "E" in
  destruct (lem n ltac:(lia)) as [G E]; name_result G E.

Ltac chain_mul lem c m e y Gy :=
  let G := fresh "G" in
  let E := fresh "E" in
  let Gc := fresh "Gc" in
  let Hc := fresh "Hc" in
  assert (Gc : IEEE.on_grid GRID c) by (cbn [IEEE.on_grid]; unfold GRID; lia);
  assert (Hc : IEEE.scaled GRID c = m * 2 ^ e * U)
    by (rewrite scaled_const by lia; reflexivity);
  destruct (lem c y (m * 2 ^ e) Gc Hc Gy) as [G E];
  [ apply Z.abs_lt; lia | clear Gc Hc; name_result G E ].

Ltac chain2 lem x y Gx Gy :=
  let G := fresh "G" in
  let E := fresh "E" in
  destruct (lem x y Gx Gy) as [G E];
  [ apply Z.abs_lt; lia | name_result G E ].

Ltac chain1 lem x Gx :=
  let G := fresh "G" in
  let E := fresh "E" in
  destruct (lem x Gx) as [G E];
  [ apply Z.abs_lt; lia | name_result G E ].

Ltac scale_inputs R G B :=
  let HU := fresh "HUp" in
  let XR := fresh "XR" in
  let XG := fresh "XG" in
  let XB := fresh "XB" in
  pose proof U_pos as HU;
  assert (0 <= R * U <= 255 * U) by nia;
  assert (0 <= G * U <= 255 * U) by nia;
  assert (0 <= B * U <= 255 * U) by nia;
  set (XR := R * U) in *; set (XG := G * U) in *; set (XB := B * U) in *;
  clearbody XR XG XB.

Lemma Y_float_bound (R G B : Z) :
  0 <= R <= 255 -> 0 <= G <= 255 -> 0 <= B <= 255 ->
  IEEE.on_grid GRID (Y_float R G B) /\
  Z.abs (IEEE.scaled GRID (Y_float R G B) - Y_exact R G B * U) <= 2 ^ 52 * U.
Proof.
  intros HR HG HB. unfold Y_float.
  rewrite lit_0_299f, lit_0_587f, lit_0_114f.
  replace (Y_exact R G B * U)
    with (10032775 * 2 ^ 35 * (R * U) + 9848226 * 2 ^ 36 * (G * U)
          + 15300821 * 2 ^ 33 * (B * U)) by (unfold Y_exact; ring).
  chain_int F32_of_int_bound R. rename z into r, G0 into Gr.
  chain_int F32_of_int_bound G. rename z into g, G0 into Gg.
  chain_int F32_of_int_bound B. rename z into b, G0 into Gb.
  scale_inputs R G B.
  chain_mul F32_mul_bound (S754_finite false 10032775 (-25)) 10032775 35 r Gr.
  rename z into p1, G0 into Gp1.
  chain_mul F32_mul_bound (S754_finite false 9848226 (-24)) 9848226 36 g Gg.
  rename z into p2, G0 into Gp2.
  chain_mul F32_mul_bound (S754_finite false 15300821 (-27)) 15300821 33 b Gb.
  rename z into p3, G0 into Gp3.
  chain2 F32_add_bound p1 p2 Gp1 Gp2. rename z into s1, G0 into Gs1.
  chain2 F32_add_bound s1 p3 Gs1 Gp3. rename z into s2, G0 into Gs2.
  split; [assumption |]. apply Z.abs_le. lia.
Qed.

Lemma Cb_float_bound (R G B : Z) :
  0 <= R <= 255 -> 0 <= G <= 255 -> 0 <= B <= 255 ->
  IEEE.on_grid GRID (Cb_float R G B) /\
  Z.abs (IEEE.scaled GRID (Cb_float R G B) - Cb_exact R G B * U) <= 2 ^ 52 * U.
Proof.
  intros HR HG HB. unfold Cb_float.
  rewrite lit_0_169, lit_0_332, lit_0_5f. cbn [F64.neg SFopp negb].
  replace (Cb_exact R G B * U)
    with (- (6088866696204911 * 2 ^ 5) * (R * U) - 5980780305148019 * 2 ^ 6 * (G * U)
          + 2 ^ 59 * (B * U) + 2 ^ 60 * (128 * U)) by (unfold Cb_exact; ring).
  chain_int F64_of_int_bound R. rename z into r, G0 into Gr.
  chain_int F64_of_int_bound G. rename z into g, G0 into Gg.
  chain_int F32_of_int_bound B. rename z into b, G0 into Gb.
  chain_int F64_of_int_bound 128. rename z into o, G0 into Go.
  scale_inputs R G B.
  chain_mul F64_mul_bound (S754_finite true 6088866696204911 (-55))
    (-6088866696204911) 5 r Gr.
  rename z into p1, G0 into Gp1.
  chain_mul F64_mul_bound (S754_finite false 5980780305148019 (-54))
    5980780305148019 6 g Gg.
  rename z into p2, G0 into Gp2.
  chain_mul F32_mul_bound (S754_finite false 8388608 (-24)) 8388608 36 b Gb.
  rename z into p3, G0 into Gp3.
  chain1 F64_of_float_bound p3 Gp3. rename z into p3', G0 into Gp3'.
  chain2 F64_sub_bound p1 p2 Gp1 Gp2. rename z into s1, G0 into Gs1.
  chain2 F64_add_bound s1 p3' Gs1 Gp3'. rename z into s2, G0 into Gs2.
  chain2 F64_add_bound s2 o Gs2 Go. rename z into s3, G0 into Gs3.
  chain1 F32_of_double_bound s3 Gs3. rename z into s4, G0 into Gs4.
  split; [assumption |]. apply Z.abs_le. lia.
Qed.

Lemma Cr_float_bound (R G B : Z) :
  0 <= R <= 255 -> 0 <= G <= 255 -> 0 <= B <= 255 ->
  IEEE.on_grid GRID (Cr_float R G B) /\
  Z.abs (IEEE.scaled GRID (Cr_float R G B) - Cr_exact R G B * U) <= 2 ^ 52 * U.
Proof.
  intros HR HG HB. unfold Cr_float.
  rewrite lit_0_419, lit_0_0813, lit_0_5f.
  replace (Cr_exact R G B * U)
    with (2 ^ 59 * (R * U) - 7548032975472951 * 2 ^ 6 * (G * U)
          - 5858282395283541 * 2 ^ 4 * (B * U) + 2 ^ 60 * (128 * U))
    by (unfold Cr_exact; ring).
  chain_int F32_of_int_bound R. rename z into r, G0 into Gr.
  chain_int F64_of_int_bound G. rename z into g, G0 into Gg.
  chain_int F64_of_int_bound B. rename z into b, G0 into Gb.
  chain_int F64_of_int_bound 128. rename z into o, G0 into Go.
  scale_inputs R G B.
  chain_mul F32_mul_bound (S754_finite false 8388608 (-24)) 8388608 36 r Gr.
  rename z into p1, G0 into Gp1.
  chain1 F64_of_float_bound p1 Gp1. rename z into p1', G0 into Gp1'.
  chain_mul F64_mul_bound (S754_finite false 7548032975472951 (-54))
    7548032975472951 6 g Gg.
  rename z into p2, G0 into Gp2.
  chain_mul F64_mul_bound (S754_finite false 5858282395283541 (-56))
    5858282395283541 4 b Gb.
  rename z into p3, G0 into Gp3.
  chain2 F64_sub_bound p1' p2 Gp1' Gp2. rename z into s1, G0 into Gs1.
  chain2 F64_sub_bound s1 p3 Gs1 Gp3. rename z into s2, G0 into Gs2.
  chain2 F64_add_bound s2 o Gs2 Go. rename z into s3, G0 into Gs3.
  chain1 F32_of_double_bound s3 Gs3. rename z into s4, G0 into Gs4.
  split; [assumption |]. apply Z.abs_le. lia.
Qed.

End Units.
End Reference.

(* ================================================================= *)
(** ** [clamp] *)

Module Clamp.

Lemma scaled_255 (K : Z) :
  16 <= K -> IEEE.scaled K (F32.of_int 255) = 255 * 2 ^ K.
Proof.
  intros HK. rewrite Reference.lit_255f. cbn [IEEE.scaled cond_Zopp].
  replace K with (16 + (-16 + K)) at 2 by lia.
  rewrite (Z.pow_add_r 2 16 (-16 + K)) by lia. change (2 ^ 16) with 65536. ring.
Qed.

(** On the grid, [clamp] saturates the value to [0, 255] and takes the
    floor. *)
Lemma clamp_on_grid (K : Z) (x : spec_float) :
  16 <= K -> IEEE.on_grid K x ->
  clamp x = Z.min (255 * 2 ^ K) (Z.max 0 (IEEE.scaled K x)) / 2 ^ K.
Proof.
  intros HK Hx.
  pose proof (Rounding.pow2_pos K ltac:(lia)) as HU.
  assert (H255 : IEEE.on_grid K (F32.of_int 255)).
  { rewrite Reference.lit_255f. cbn [IEEE.on_grid]. lia. }
  assert (H0 : IEEE.on_grid K (S754_zero false)) by exact I.
  unfold clamp, static_cast_uint8, saturate, std_max, std_min.
  rewrite (Grid.ltb_on_grid K x _ Hx H255), scaled_255 by assumption.
  destruct (Z.ltb_spec (IEEE.scaled K x) (255 * 2 ^ K)) as [Hlt | Hge].
  - rewrite (Grid.ltb_on_grid K _ x H0 Hx). cbn [IEEE.scaled].
    destruct (Z.ltb_spec 0 (IEEE.scaled K x)) as [Hpos | Hneg].
    + rewrite (Grid.trunc_on_grid K x) by (try assumption; lia).
      rewrite Z.max_r, Z.min_r by lia. reflexivity.
    + rewrite Z.max_l, Z.min_r by lia. reflexivity.
  - rewrite (Grid.ltb_on_grid K _ _ H0 H255), scaled_255 by assumption.
    cbn [IEEE.scaled].
    replace (0 <? 255 * 2 ^ K) with true by (symmetry; apply Z.ltb_lt; lia).
    rewrite Reference.lit_255f. cbn [IEEE.trunc cond_Zopp].
    rewrite Z.max_r, Z.min_l by lia.
    rewrite Z.div_mul by lia. reflexivity.
Qed.

(** Whatever the [float], the value cast by [clamp] is in [0, 255]. *)
Lemma clamp_range (x : spec_float) : 0 <= clamp x <= 255.
Proof.
  destruct x as [s | s | | s m e].
  - destruct s; vm_compute; split; discriminate.
  - destruct s; vm_compute; split; discriminate.
  - vm_compute; split; discriminate.
  - rewrite (clamp_on_grid (Z.max 16 (- e))) by (cbn [IEEE.on_grid]; lia).
    pose proof (Rounding.pow2_pos (Z.max 16 (- e)) ltac:(lia)) as HU.
    split.
    + apply Z.div_pos; lia.
    + apply Z.div_le_upper_bound; lia.
Qed.

End Clamp.

(* ================================================================= *)
(** ** The fixed-point converter in closed form *)

Module Fixed.
Import Fixpt.

Lemma fixpt_65_738 q : fixpt_t q 65738 1000 = 4207.
Proof. destruct q; vm_compute; reflexivity. Qed.
Lemma fixpt_129_057 q : fixpt_t q 129057 1000 = c129_057 q.
Proof. destruct q; vm_compute; reflexivity. Qed.
Lemma fixpt_25_064 q : fixpt_t q 25064 1000 = 1604.
Proof. destruct q; vm_compute; reflexivity. Qed.
Lemma fixpt_37_945 q : fixpt_t q 37945 1000 = 2428.
Proof. destruct q; vm_compute; reflexivity. Qed.
Lemma fixpt_74_494 q : fixpt_t q 74494 1000 = c74_494 q.
Proof. destruct q; vm_compute; reflexivity. Qed.
Lemma fixpt_112_439 q : fixpt_t q 112439 1000 = 7196.
Proof. destruct q; vm_compute; reflexivity. Qed.
Lemma fixpt_94_154 q : fixpt_t q 94154 1000 = c94_154 q.
Proof. destruct q; vm_compute; reflexivity. Qed.
Lemma fixpt_18_285 q : fixpt_t q 18285 1000 = 1170.
Proof. destruct q; vm_compute; reflexivity. Qed.
Lemma fixpt_0_5 q : fixpt_t q 1 2 = 32.
Proof. destruct q; vm_compute; reflexivity. Qed.
Lemma fixpt_4 : of_int 4 = 256.
Proof. reflexivity. Qed.
Lemma fixpt_128 : of_int 128 = 8192.
Proof. reflexivity. Qed.

Lemma Y_fixpt_eq q (r g b : Z) :
  Y_fixpt q (mkRGB r g b) =
  288 + (4207 * r + c129_057 q * g + 1604 * b) / 256.
Proof.
  unfold Y_fixpt, add, sub, mul_uint, shr. cbn [R G B].
  rewrite fixpt_65_738, fixpt_129_057, fixpt_25_064, fixpt_0_5, fixpt_4.
  rewrite Z.shiftr_div_pow2 by lia. change (2 ^ 8) with 256. lia.
Qed.

Lemma Cb_fixpt_eq q (r g b : Z) :
  Cb_fixpt q (mkRGB r g b) =
  8224 - (2428 * r + c74_494 q * g - 7196 * b) / 256.
Proof.
  unfold Cb_fixpt, add, sub, mul_uint, shr. cbn [R G B].
  rewrite fixpt_37_945, fixpt_74_494, fixpt_112_439, fixpt_0_5, fixpt_128.
  rewrite Z.shiftr_div_pow2 by lia. change (2 ^ 8) with 256. lia.
Qed.

Lemma Cr_fixpt_eq q (r g b : Z) :
  Cr_fixpt q (mkRGB r g b) =
  8224 + (7196 * r - c94_154 q * g - 1170 * b) / 256.
Proof.
  unfold Cr_fixpt, add, sub, mul_uint, shr. cbn [R G B].
  rewrite fixpt_112_439, fixpt_94_154, fixpt_18_285, fixpt_0_5, fixpt_128.
  rewrite Z.shiftr_div_pow2 by lia. change (2 ^ 8) with 256. lia.
Qed.

(** Storing a value of [0, 256) into the 8-bit field keeps its integer
    part. *)
Lemma to_uint8_small (x : Z) :
  0 <= x < 16384 -> to_uint8 x = x / 64.
Proof.
  intros Hx. unfold to_uint8, F, W, I_W.
  rewrite Z.shiftr_div_pow2 by lia. change (2 ^ (18 - 12)) with 64. change (2 ^ 8) with 256.
  apply Z.mod_small.
  split; [apply Z.div_pos; lia | apply Z.div_lt_upper_bound; lia].
Qed.

End Fixed.

(* ================================================================= *)
(** ** Fixed point against floating point on the swept range *)

Module Agreement.

Lemma floor_facts (a b : Z) : 0 < b -> b * (a / b) <= a < b * (a / b) + b.
Proof.
  intros Hb. pose proof (Z.mul_div_le a b Hb). pose proof (Z.mul_succ_div_gt a b Hb). lia.
Qed.

Ltac floor_of a b :=
  let H := fresh "Hfl" in
  let q := fresh "q" in
  pose proof (floor_facts a b ltac:(lia)) as H;
  revert H; generalize (a / b); intros q H.

(** The pre-narrowing values on the whole 8-bit range. *)
Lemma fixpt_range q (r g b : Z) :
  0 <= r <= 255 -> 0 <= g <= 255 -> 0 <= b <= 255 ->
  288 <= Y_fixpt q (mkRGB r g b) <= 14304 /\
  1057 <= Cb_fixpt q (mkRGB r g b) <= 15392 /\
  1056 <= Cr_fixpt q (mkRGB r g b) <= 15391.
Proof.
  intros Hr Hg Hb.
  rewrite Fixed.Y_fixpt_eq, Fixed.Cb_fixpt_eq, Fixed.Cr_fixpt_eq.
  destruct q; cbn [c129_057 c74_494 c94_154].
  - floor_of (4207 * r + 8259 * g + 1604 * b) 256.
    floor_of (2428 * r + 4767 * g - 7196 * b) 256.
    floor_of (7196 * r - 6025 * g - 1170 * b) 256.
    lia.
  - floor_of (4207 * r + 8260 * g + 1604 * b) 256.
    floor_of (2428 * r + 4768 * g - 7196 * b) 256.
    floor_of (7196 * r - 6026 * g - 1170 * b) 256.
    lia.
Qed.

Section Units.
Variable U : Z.
Hypothesis HU : 2 ^ GRID = 2 ^ 60 * U.

(** A fixed-point channel [x / 64] against the clamped reference,
    whose value [v / (2^60 * U)] is within [2^-8] of [ex / 2^60].  The
    two conditions on [x] and [ex] say that the exact values differ by
    less than the threshold with a margin for the two floors and the
    rounding errors. *)
Lemma within_units (x ex v : Z) :
  0 <= x < 16384 ->
  (x - 320) * 2 ^ 54 + 2 ^ 52 <= ex ->
  ex + 2 ^ 52 < (x - 63) * 2 ^ 54 + 6 * 2 ^ 60 ->
  Z.abs (v - ex * U) <= 2 ^ 52 * U ->
  Z.abs (Fixpt.to_uint8 x
         - Z.min (255 * (2 ^ 60 * U)) (Z.max 0 v) / (2 ^ 60 * U)) <= 5.
Proof.
  intros Hx Hlo Hhi Hv.
  pose proof (Reference.U_pos U HU) as HUp.
  rewrite Fixed.to_uint8_small by assumption.
  apply Z.abs_le in Hv.
  floor_of x 64.
  floor_of (Z.min (255 * (2 ^ 60 * U)) (Z.max 0 v)) (2 ^ 60 * U).
  assert (Hlo' : ((x - 320) * 2 ^ 54 + 2 ^ 52) * U <= ex * U)
    by (apply Z.mul_le_mono_nonneg_r; lia).
  assert (Hhi' : (ex + 2 ^ 52) * U < ((x - 63) * 2 ^ 54 + 6 * 2 ^ 60) * U)
    by (apply Z.mul_lt_mono_pos_r; lia).
  assert (Hq1 : (64 * q) * U <= x * U) by (apply Z.mul_le_mono_nonneg_r; lia).
  assert (Hq2 : x * U <= (64 * q + 63) * U) by (apply Z.mul_le_mono_nonneg_r; lia).
  assert (Hq3 : 0 * U <= q * U <= 255 * U)
    by (split; apply Z.mul_le_mono_nonneg_r; lia).
  apply Z.abs_le. split.
  - destruct (Z.le_gt_cases q0 (q + 5)) as [H | H]; [lia | exfalso].
    assert (H' : (q + 6) * U <= q0 * U) by (apply Z.mul_le_mono_nonneg_r; lia).
    lia.
  - destruct (Z.le_gt_cases (q - 5) q0) as [H | H]; [lia | exfalso].
    assert (H' : (q0 + 1) * U <= (q - 5) * U) by (apply Z.mul_le_mono_nonneg_r; lia).
    lia.
Qed.

Lemma Y_within q (r g b : Z) :
  0 <= r <= 63 -> 0 <= g <= 63 -> 0 <= b <= 63 ->
  Z.abs (Y (convert_fixpt q (mkRGB r g b)) - clamp (Y_float r g b)) <= 5.
Proof.
  intros Hr Hg Hb. cbn [convert_fixpt Y].
  destruct (Reference.Y_float_bound U HU r g b) as [Gy Ey]; try lia.
  rewrite (Clamp.clamp_on_grid GRID _ ltac:(unfold GRID; lia) Gy), HU.
  apply (within_units _ (Y_exact r g b)); [| | | exact Ey];
    rewrite Fixed.Y_fixpt_eq; unfold Y_exact;
    destruct q; cbn [c129_057];
    match goal with
    | |- context [?a / 256] => floor_of a 256
    end; lia.
Qed.

Lemma Cb_within q (r g b : Z) :
  0 <= r <= 63 -> 0 <= g <= 63 -> 0 <= b <= 63 ->
  Z.abs (Cb (convert_fixpt q (mkRGB r g b)) - clamp (Cb_float r g b)) <= 5.
Proof.
  intros Hr Hg Hb. cbn [convert_fixpt Cb].
  destruct (Reference.Cb_float_bound U HU r g b) as [Gy Ey]; try lia.
  rewrite (Clamp.clamp_on_grid GRID _ ltac:(unfold GRID; lia) Gy), HU.
  apply (within_units _ (Cb_exact r g b)); [| | | exact Ey];
    rewrite Fixed.Cb_fixpt_eq; unfold Cb_exact;
    destruct q; cbn [c74_494];
    match goal with
    | |- context [?a / 256] => floor_of a 256
    end; lia.
Qed.

Lemma Cr_within q (r g b : Z) :
  0 <= r <= 63 -> 0 <= g <= 63 -> 0 <= b <= 63 ->
  Z.abs (Cr (convert_fixpt q (mkRGB r g b)) - clamp (Cr_float r g b)) <= 5.
Proof.
  intros Hr Hg Hb. cbn [convert_fixpt Cr].
  destruct (Reference.Cr_float_bound U HU r g b) as [Gy Ey]; try lia.
  rewrite (Clamp.clamp_on_grid GRID _ ltac:(unfold GRID; lia) Gy), HU.
  apply (within_units _ (Cr_exact r g b)); [| | | exact Ey];
    rewrite Fixed.Cr_fixpt_eq; unfold Cr_exact;
    destruct q; cbn [c94_154];
    match goal with
    | |- context [?a / 256] => floor_of a 256
    end; lia.
Qed.

End Units.

(** The unit: [2^1074 = 2^60 * 2^1014]. *)
Lemma unit_split : 2 ^ GRID = 2 ^ 60 * 2 ^ 1014.
Proof. unfold GRID. rewrite <- Z.pow_add_r by lia. reflexivity. Qed.

(** On the swept range the three channels of the two converters differ
    by at most the threshold. *)
Lemma sample_within q (r g b : Z) :
  0 <= r <= 63 -> 0 <= g <= 63 -> 0 <= b <= 63 ->
  Z.abs (Y (convert_fixpt q (mkRGB r g b)) - clamp (Y_float r g b)) <= 5 /\
  Z.abs (Cb (convert_fixpt q (mkRGB r g b)) - clamp (Cb_float r g b)) <= 5 /\
  Z.abs (Cr (convert_fixpt q (mkRGB r g b)) - clamp (Cr_float r g b)) <= 5.
Proof.
  intros Hr Hg Hb. split; [| split].
  - exact (Y_within _ unit_split q r g b Hr Hg Hb).
  - exact (Cb_within _ unit_split q r g b Hr Hg Hb).
  - exact (Cr_within _ unit_split q r g b Hr Hg Hb).
Qed.

(** On the whole 8-bit range the three [float] results lie on the
    grid. *)
Lemma floats_on_grid (r g b : Z) :
  0 <= r <= 255 -> 0 <= g <= 255 -> 0 <= b <= 255 ->
  IEEE.on_grid GRID (Y_float r g b) /\
  IEEE.on_grid GRID (Cb_float r g b) /\
  IEEE.on_grid GRID (Cr_float r g b).
Proof.
  intros Hr Hg Hb. split; [| split].
  - exact (proj1 (Reference.Y_float_bound _ unit_split r g b Hr Hg Hb)).
  - exact (proj1 (Reference.Cb_float_bound _ unit_split r g b Hr Hg Hb)).
  - exact (proj1 (Reference.Cr_float_bound _ unit_split r g b Hr Hg Hb)).
Qed.

End Agreement.

(* ================================================================= *)
(** ** The converter step and the test bench *)

Module Bench.

(** A successful step: the head of the input channel is consumed and
    its conversion is appended to the output channel. *)
Lemma smarthls_step q (fin : Fifo.t RGB) (fout : Fifo.t YCbCr) (i : RGB) rest :
  Fifo.items fin = i :: rest ->
  (Fifo.occupancy fout < Fifo.depth fout)%nat ->
  RGB2YCbCr_smarthls q fin fout =
    Some (Fifo.mk (Fifo.depth fin) rest,
          Fifo.mk (Fifo.depth fout) (Fifo.items fout ++ [convert_fixpt q i])).
Proof.
  intros Hin Hout. unfold RGB2YCbCr_smarthls, Fifo.read, Fifo.write.
  rewrite Hin. apply Nat.ltb_lt in Hout. rewrite Hout. reflexivity.
Qed.

Lemma idle_initial : idle initial.
Proof. unfold idle, initial. cbn. repeat split; lia. Qed.

Lemma check_sample_idle q (i : RGB) (st : bench) :
  idle st ->
  check_sample q i st =
    Some (mkBench (input_fifo st) (output_fifo st)
            (fst (checked q i (err st) (printed st)))
            (snd (checked q i (err st) (printed st)))).
Proof.
  intros (Hin & Hout & Din & Dout).
  destruct st as [[din iin] [dout iout] e log]. cbn in Hin, Hout, Din, Dout. subst iin iout.
  unfold check_sample, checked. cbn [input_fifo output_fifo err printed].
  unfold Fifo.write at 1. cbn [Fifo.occupancy Fifo.items Fifo.depth List.length].
  replace (0 <? din)%nat with true by (symmetry; apply Nat.ltb_lt; assumption).
  cbn [app].
  rewrite (smarthls_step q _ _ i []) by (cbn; trivial).
  cbn [Fifo.depth Fifo.items app]. unfold Fifo.read. cbn [Fifo.items Fifo.depth].
  destruct (value_check _ _ e log) as [e' log']. reflexivity.
Qed.

Lemma compareAndReport_flag a b l t :
  snd (compareAndReport a b l t) = if t <? Z.abs (a - b) then 1 else 0.
Proof. unfold compareAndReport. destruct (t <? Z.abs (a - b)); reflexivity. Qed.

Lemma value_check_count out sw e log :
  fst (value_check out sw e log) =
    e + snd (compareAndReport (Y out) (fst (fst sw)) "Y" THRESHOLD)
      + snd (compareAndReport (Cb out) (snd (fst sw)) "Cb" THRESHOLD)
      + snd (compareAndReport (Cr out) (snd sw) "Cr" THRESHOLD).
Proof.
  destruct sw as [[y cb] cr]. unfold value_check. cbn [fst snd].
  destruct (compareAndReport (Y out) y "Y" THRESHOLD) as [l1 r1].
  destruct (compareAndReport (Cb out) cb "Cb" THRESHOLD) as [l2 r2].
  destruct (compareAndReport (Cr out) cr "Cr" THRESHOLD) as [l3 r3].
  reflexivity.
Qed.

Lemma checked_count q i e log :
  fst (checked q i e log) = e + mismatches q i.
Proof.
  unfold mismatches, checked. rewrite 2!value_check_count. lia.
Qed.

Lemma mismatches_range q i : 0 <= mismatches q i <= 3.
Proof.
  unfold mismatches, checked. rewrite value_check_count, 3!compareAndReport_flag.
  repeat match goal with |- context [if ?c then _ else _] => destruct c end; lia.
Qed.

(** The bench runs any input sequence to its end and adds up the
    mismatches. *)
Lemma run_total q (samples : list RGB) :
  forall st, idle st ->
    exists st', run q samples st = Some st' /\ idle st' /\
                err st' = err st + total_mismatches q samples.
Proof.
  induction samples as [| i rest IH]; intros st Hidle; cbn [run total_mismatches].
  - exists st. repeat split; try apply Hidle. lia.
  - rewrite (check_sample_idle q i st Hidle).
    set (st1 := mkBench _ _ _ _).
    assert (H1 : idle st1) by (unfold idle, st1; cbn [input_fifo output_fifo]; exact Hidle).
    destruct (IH st1 H1) as (st' & Hrun & Hidle' & Herr).
    exists st'. repeat split; try apply Hidle'; try assumption.
    rewrite Herr. unfold st1. cbn [err]. rewrite checked_count. lia.
Qed.

(** A sample within the threshold on its three channels leaves the
    bench as it was. *)
Lemma check_sample_match q i st :
  idle st ->
  Z.abs (Y (convert_fixpt q i) - fst (fst (RGB2YCbCr_sw (R i) (G i) (B i)))) <= THRESHOLD ->
  Z.abs (Cb (convert_fixpt q i) - snd (fst (RGB2YCbCr_sw (R i) (G i) (B i)))) <= THRESHOLD ->
  Z.abs (Cr (convert_fixpt q i) - snd (RGB2YCbCr_sw (R i) (G i) (B i))) <= THRESHOLD ->
  check_sample q i st = Some st.
Proof.
  intros Hidle HY HCb HCr. rewrite (check_sample_idle q i st Hidle).
  unfold checked, value_check.
  destruct (RGB2YCbCr_sw (R i) (G i) (B i)) as [[y cb] cr]. cbn [fst snd] in *.
  unfold compareAndReport.
  replace (THRESHOLD <? Z.abs (Y (convert_fixpt q i) - y)) with false
    by (symmetry; apply Z.ltb_ge; assumption).
  replace (THRESHOLD <? Z.abs (Cb (convert_fixpt q i) - cb)) with false
    by (symmetry; apply Z.ltb_ge; assumption).
  replace (THRESHOLD <? Z.abs (Cr (convert_fixpt q i) - cr)) with false
    by (symmetry; apply Z.ltb_ge; assumption).
  cbn [fst snd]. rewrite !app_nil_r, !Z.add_0_r.
  destruct st; reflexivity.
Qed.

(** A loop whose iterations all leave the state unchanged. *)
Lemma for_loop_fixed {S : Type} (body : Z -> S -> option S) (st : S) (n : nat) :
  forall lo, (forall i, lo <= i < lo + Z.of_nat n -> body i st = Some st) ->
    for_loop n lo body st = Some st.
Proof.
  induction n as [| n IH]; intros lo Hbody; cbn [for_loop]; [reflexivity |].
  rewrite Hbody by lia. apply IH. intros i Hi. apply Hbody. lia.
Qed.


Lemma check_sample_in_range q (r g b : Z) st :
  idle st -> 0 <= r <= 63 -> 0 <= g <= 63 -> 0 <= b <= 63 ->
  check_sample q (mkRGB r g b) st = Some st.
Proof.
  intros Hidle Hr Hg Hb.
  destruct (Agreement.sample_within q r g b Hr Hg Hb) as (HY & HCb & HCr).
  apply check_sample_match; [assumption | exact HY | exact HCb | exact HCr].
Qed.

Lemma ap_uint8_small (n : Z) : 0 <= n < 256 -> ap_uint8 n = n.
Proof. intros Hn. unfold ap_uint8. apply Z.mod_small. change (2 ^ 8) with 256. lia. Qed.

(** The sweep leaves the bench as it found it: no mismatch is counted
    and nothing is printed. *)
Lemma sweep_fixed q (n : nat) st :
  (n <= 64)%nat -> idle st -> sweep q n st = Some st.
Proof.
  intros Hn Hidle. unfold sweep.
  apply for_loop_fixed; intros i Hi.
  apply for_loop_fixed; intros j Hj.
  apply for_loop_fixed; intros k Hk.
  unfold loop_body. rewrite !ap_uint8_small by lia.
  apply check_sample_in_range; [assumption | lia | lia | lia].
Qed.

(** The loops of [main] as a run over the list of their samples. *)
Lemma run_app q (l1 l2 : list RGB) st :
  run q (l1 ++ l2) st =
    match run q l1 st with
    | Some st' => run q l2 st'
    | None => None
    end.
Proof.
  revert st. induction l1 as [| i l1 IH]; intros st; cbn [run app]; [reflexivity |].
  destruct (check_sample q i st) as [st' |]; [apply IH | reflexivity].
Qed.

Lemma for_loop_run q (body : Z -> bench -> option bench) (samples : Z -> list RGB) :
  (forall i st, body i st = run q (samples i) st) ->
  forall n lo st,
    for_loop n lo body st = run q (flat_map samples (zrange lo n)) st.
Proof.
  intros Hbody. induction n as [| n IH]; intros lo st; cbn [for_loop zrange flat_map run].
  - reflexivity.
  - rewrite run_app, Hbody.
    destruct (run q (samples lo) st) as [st' |]; [apply IH | reflexivity].
Qed.

Lemma flat_map_single {A B : Type} (f : A -> B) (l : list A) :
  flat_map (fun x => [f x]) l = map f l.
Proof. induction l as [| x l IH]; cbn; [reflexivity | rewrite IH; reflexivity]. Qed.

Lemma sweep_is_run q (n : nat) st :
  sweep q n st = run q (sweep_samples n) st.
Proof.
  unfold sweep, sweep_samples.
  apply for_loop_run. intros i st1.
  apply for_loop_run. intros j st2.
  rewrite <- flat_map_single.
  apply (for_loop_run q (fun k => loop_body q i j k)
           (fun k => [mkRGB (ap_uint8 i) (ap_uint8 j) (ap_uint8 k)])).
  intros k st3. unfold loop_body. cbn [run].
  destruct (check_sample q _ st3); reflexivity.
Qed.

(** The comparator's flag is the spec's per-channel mismatch. *)
Lemma compareAndReport_spec a b l :
  snd (compareAndReport a b l THRESHOLD) = spec_channel_mismatch a b.
Proof.
  rewrite compareAndReport_flag. unfold spec_channel_mismatch, THRESHOLD.
  destruct (Z.ltb_spec 5 (Z.abs (a - b))), (Z.leb_spec (Z.abs (a - b)) 5);
    (reflexivity || lia).
Qed.

Lemma mismatches_spec q i : mismatches q i = spec_sample_mismatches q i.
Proof.
  unfold mismatches, checked, spec_sample_mismatches.
  rewrite value_check_count, 3!compareAndReport_spec.
  destruct (RGB2YCbCr_sw (R i) (G i) (B i)) as [[y cb] cr]. cbn [fst snd]. lia.
Qed.

Lemma total_mismatches_spec q samples :
  total_mismatches q samples = spec_mismatch_count q samples.
Proof.
  induction samples as [| i rest IH]; cbn [total_mismatches spec_mismatch_count fold_right].
  - reflexivity.
  - rewrite mismatches_spec, IH. reflexivity.
Qed.

Lemma spec_sample_mismatches_range q i : 0 <= spec_sample_mismatches q i <= 3.
Proof. rewrite <- mismatches_spec. apply mismatches_range. Qed.

Lemma spec_mismatch_count_zero q samples :
  spec_mismatch_count q samples = 0 <->
  forall i, In i samples -> spec_sample_mismatches q i = 0.
Proof.
  assert (Hpos : forall l, 0 <= spec_mismatch_count q l).
  { induction l as [| i l IH]; cbn [spec_mismatch_count fold_right]; [lia |].
    fold (spec_mismatch_count q l).
    pose proof (spec_sample_mismatches_range q i). lia. }
  induction samples as [| i rest IH]; cbn [spec_mismatch_count fold_right In].
  - split; [intros _ i [] | reflexivity].
  - fold (spec_mismatch_count q rest).
    pose proof (spec_sample_mismatches_range q i) as Hi.
    pose proof (Hpos rest) as Hr.
    split.
    + intros H j [<- | Hj]; [lia |]. apply IH; [lia | exact Hj].
    + intros H.
      assert (H1 : spec_sample_mismatches q i = 0) by (apply H; left; reflexivity).
      assert (H2 : spec_mismatch_count q rest = 0)
        by (apply IH; intros j Hj; apply H; right; exact Hj).
      lia.
Qed.

End Bench.

(* ================================================================= *)
(** ** Comparison by value and [SFcompare] *)

Module Canonical.

(** Of two canonical mantissas the one with the smaller exponent is the
    smaller number. *)
Lemma canonical_lt (prec emax : Z) (m1 m2 : positive) (e1 e2 : Z) :
  canonical_mantissa prec emax m1 e1 = true ->
  canonical_mantissa prec emax m2 e2 = true ->
  e1 < e2 ->
  Zpos m1 * 2 ^ (e1 - Z.min e1 e2) < Zpos m2 * 2 ^ (e2 - Z.min e1 e2).
Proof.
  unfold canonical_mantissa, SpecFloat.fexp. intros H1 H2 He.
  apply Z.eqb_eq in H1. apply Z.eqb_eq in H2.
  rewrite Z.min_l, Z.sub_diag, Z.mul_1_r by lia.
  pose proof (Rounding.digits2_pos_bounds m1) as [_ Hm1].
  pose proof (Rounding.digits2_pos_bounds m2) as [Hm2 _].
  assert (Hd : Zpos (digits2_pos m1) <= Zpos (digits2_pos m2) - 1 + (e2 - e1)) by lia.
  apply Rounding.pow2_le in Hd.
  rewrite Z.pow_add_r in Hd by lia.
  pose proof (Rounding.pow2_pos (e2 - e1) ltac:(lia)) as Hp.
  revert Hm1 Hm2 Hd Hp.
  generalize (2 ^ Zpos (digits2_pos m1)) (2 ^ (Zpos (digits2_pos m2) - 1)) (2 ^ (e2 - e1)).
  intros a b c Hm1 Hm2 Hd Hp. nia.
Qed.

(** On valid operands [IEEE.compare] is the Standard Library's
    [SFcompare]. *)
Lemma compare_canonical (prec emax : Z) (x y : spec_float) :
  valid_binary prec emax x = true -> valid_binary prec emax y = true ->
  IEEE.compare x y = SFcompare x y.
Proof.
  intros Hx Hy.
  destruct x as [sx | sx | | sx mx ex]; destruct y as [sy | sy | | sy my ey];
    try reflexivity.
  cbn [valid_binary] in Hx, Hy. unfold bounded in Hx, Hy.
  apply andb_prop in Hx as [Cx _]. apply andb_prop in Hy as [Cy _].
  cbn [IEEE.compare SFcompare]. cbv zeta. f_equal.
  pose proof (Rounding.pow2_pos (ex - Z.min ex ey) ltac:(lia)) as Px.
  pose proof (Rounding.pow2_pos (ey - Z.min ex ey) ltac:(lia)) as Py.
  destruct (Z.compare_spec ex ey) as [Heq | Hlt | Hgt].
  - subst ey. rewrite Z.min_id, Z.sub_diag, !Z.mul_1_r.
    destruct sx, sy; reflexivity.
  - pose proof (canonical_lt prec emax mx my ex ey Cx Cy Hlt) as H.
    destruct sx, sy; cbn [cond_Zopp].
    + apply Z.compare_gt_iff. lia.
    + apply Z.compare_lt_iff. lia.
    + apply Z.compare_gt_iff. lia.
    + apply Z.compare_lt_iff. lia.
  - pose proof (canonical_lt prec emax my mx ey ex Cy Cx ltac:(lia)) as H.
    rewrite (Z.min_comm ey ex) in H.
    destruct sx, sy; cbn [cond_Zopp].
    + apply Z.compare_lt_iff. lia.
    + apply Z.compare_lt_iff. lia.
    + apply Z.compare_gt_iff. lia.
    + apply Z.compare_gt_iff. lia.
Qed.

End Canonical.

(* ================================================================= *)
(** ** The claims *)

(** C1, as stated, fails: at the white point (255,255,255) the
    fixed-point luma is 223 and the reference luma is 255, 32 apart, in
    both quantisation modes. *)
Lemma fixpt_white_luma_off_by_32 :
  Y (convert_fixpt Fixpt.AP_TRN (mkRGB 255 255 255))
    - fst (fst (RGB2YCbCr_sw 255 255 255)) = -32 /\
  Y (convert_fixpt Fixpt.AP_RND (mkRGB 255 255 255))
    - fst (fst (RGB2YCbCr_sw 255 255 255)) = -32.
Proof. split; vm_compute; reflexivity. Qed.

(** C1, amended: for every RGB input with R, G, B in [0, 63] (the range
    the test bench sweeps), one step of [RGB2YCbCr_smarthls] on a
    channel holding the sample writes a sample whose Y, Cb and Cr each
    differ by at most 5 from the output of [RGB2YCbCr_sw]. *)
Theorem fixpt_within_threshold_on_swept_range
    q (fin : Fifo.t RGB) (fout : Fifo.t YCbCr) (r g b : Z) rest :
  0 <= r <= 63 -> 0 <= g <= 63 -> 0 <= b <= 63 ->
  Fifo.items fin = mkRGB r g b :: rest ->
  (Fifo.occupancy fout < Fifo.depth fout)%nat ->
  exists fin' out,
    RGB2YCbCr_smarthls q fin fout =
      Some (fin', Fifo.mk (Fifo.depth fout) (Fifo.items fout ++ [out])) /\
    within_threshold out (RGB2YCbCr_sw r g b).
Proof.
  intros Hr Hg Hb Hin Hout.
  exists (Fifo.mk (Fifo.depth fin) rest), (convert_fixpt q (mkRGB r g b)).
  split.
  - apply Bench.smarthls_step; assumption.
  - exact (Agreement.sample_within q r g b Hr Hg Hb).
Qed.

Lemma fixpt_within_threshold_on_swept_range_witness :
  exists fin' out,
    RGB2YCbCr_smarthls Fixpt.AP_TRN (Fifo.mk 5 [mkRGB 63 63 63]) (Fifo.create 5) =
      Some (fin', Fifo.mk 5 ([] ++ [out])) /\
    within_threshold out (RGB2YCbCr_sw 63 63 63).
Proof.
  apply (fixpt_within_threshold_on_swept_range Fixpt.AP_TRN
           (Fifo.mk 5 [mkRGB 63 63 63]) (Fifo.create 5) 63 63 63 []);
    [lia | lia | lia | reflexivity | cbn; lia].
Defined.

(** C2: the sweep of [main] over R, G, B in 0..63 counts no mismatch:
    [main] prints the summary with 0 mismatches and PASS, and returns
    0. *)
Theorem main_sweep_counts_no_mismatch q :
  main q = Some ([Summary 0; PASS], 0).
Proof.
  unfold main.
  rewrite (Bench.sweep_fixed q 64 (initial) (Nat.le_refl 64) Bench.idle_initial).
  reflexivity.
Qed.

(** C3: for every 8-bit input each channel returned by [RGB2YCbCr_sw]
    is in [0, 255], and it is the [float] result clamped to [0, 255] and
    then truncated. *)
Theorem reference_channels_clamped_then_truncated (r g b : Z) :
  0 <= r <= 255 -> 0 <= g <= 255 -> 0 <= b <= 255 ->
  let '(y, cb, cr) := RGB2YCbCr_sw r g b in
  (0 <= y <= 255 /\ 0 <= cb <= 255 /\ 0 <= cr <= 255) /\
  y = clamp_then_truncate (Y_float r g b) /\
  cb = clamp_then_truncate (Cb_float r g b) /\
  cr = clamp_then_truncate (Cr_float r g b).
Proof.
  intros Hr Hg Hb. unfold RGB2YCbCr_sw, clamp_then_truncate.
  destruct (Agreement.floats_on_grid r g b Hr Hg Hb) as (GY & GCb & GCr).
  assert (HK : 16 <= GRID) by (unfold GRID; lia).
  split; [| split; [| split]].
  - split; [| split]; apply Clamp.clamp_range.
  - apply Clamp.clamp_on_grid; assumption.
  - apply Clamp.clamp_on_grid; assumption.
  - apply Clamp.clamp_on_grid; assumption.
Qed.

Lemma reference_channels_clamped_then_truncated_witness :
  let '(y, cb, cr) := RGB2YCbCr_sw 255 255 255 in
  (0 <= y <= 255 /\ 0 <= cb <= 255 /\ 0 <= cr <= 255) /\
  y = clamp_then_truncate (Y_float 255 255 255) /\
  cb = clamp_then_truncate (Cb_float 255 255 255) /\
  cr = clamp_then_truncate (Cr_float 255 255 255).
Proof.
  apply (reference_channels_clamped_then_truncated 255 255 255); lia.
Defined.

(** C4: [compareAndReport] returns 1 exactly when
    [|actual - expected| > threshold] and 0 otherwise (it prints a line
    exactly in the first case); the threshold passed for each of the
    three channels is the constant 5. *)
Theorem compareAndReport_flags_excess actual expected label threshold :
  (snd (compareAndReport actual expected label threshold) = 1 <->
     Z.abs (actual - expected) > threshold) /\
  (snd (compareAndReport actual expected label threshold) = 0 <->
     Z.abs (actual - expected) <= threshold) /\
  (fst (compareAndReport actual expected label threshold) = [] <->
     Z.abs (actual - expected) <= threshold) /\
  THRESHOLD = 5 /\
  forall out y cb cr e log,
    fst (value_check out (y, cb, cr) e log) =
      e + snd (compareAndReport (Y out) y "Y" 5)
        + snd (compareAndReport (Cb out) cb "Cb" 5)
        + snd (compareAndReport (Cr out) cr "Cr" 5).
Proof.
  unfold compareAndReport.
  destruct (Z.ltb_spec threshold (Z.abs (actual - expected))) as [H | H];
    cbn [fst snd].
  - repeat split; intros; try lia; try discriminate.
    apply Bench.value_check_count.
  - repeat split; intros; try lia; try discriminate.
    apply Bench.value_check_count.
Qed.

(** C5: each sample adds to the running count the number of its
    channels (0 to 3, each channel 0 or 1) whose fixed-point value
    differs from the reference by more than 5; on any input sequence
    the bench runs to the end with the sum of these numbers as its
    count; the report ends with the count and with PASS exactly when
    the count is 0, FAIL otherwise; the value returned is the count,
    which is 0 exactly when no channel of any sample mismatched;
    [main] is this run on the swept samples. *)
Theorem harness_counts_and_reports q (samples : list RGB) :
  (forall i e0 log0,
     0 <= spec_sample_mismatches q i <= 3 /\
     exists log1,
       check_sample q i (mkBench (Fifo.create 5) (Fifo.create 5) e0 log0) =
         Some (mkBench (Fifo.create 5) (Fifo.create 5)
                 (e0 + spec_sample_mismatches q i) log1)) /\
  (exists st,
     run q samples initial = Some st /\
     err st = spec_mismatch_count q samples /\
     0 <= err st <= 3 * Z.of_nat (List.length samples) /\
     snd (report st) = spec_mismatch_count q samples /\
     (snd (report st) = 0 <->
        forall i, In i samples -> spec_sample_mismatches q i = 0) /\
     (spec_mismatch_count q samples = 0 ->
        fst (report st) = printed st ++ [Summary 0; PASS]) /\
     (spec_mismatch_count q samples <> 0 ->
        fst (report st) =
          printed st ++ [Summary (spec_mismatch_count q samples); FAIL])) /\
  main q = option_map report (run q (sweep_samples 64) initial).
Proof.
  split; [| split].
  - intros i e0 log0. split; [apply Bench.spec_sample_mismatches_range |].
    set (st := mkBench (Fifo.create 5) (Fifo.create 5) e0 log0).
    assert (Hidle : idle st) by (unfold idle, st; cbn; repeat split; lia).
    exists (snd (checked q i e0 log0)).
    rewrite (Bench.check_sample_idle q i st Hidle).
    unfold st. cbn [input_fifo output_fifo err printed].
    rewrite Bench.checked_count, Bench.mismatches_spec. reflexivity.
  - destruct (Bench.run_total q samples initial Bench.idle_initial)
      as (st & Hrun & _ & Herr).
    exists st. cbn [err initial] in Herr.
    rewrite Z.add_0_l, Bench.total_mismatches_spec in Herr.
    split; [exact Hrun |]. split; [exact Herr |]. split.
    + rewrite Herr. clear. induction samples as [| i rest IH].
      * cbn. lia.
      * cbn [spec_mismatch_count fold_right List.length].
        fold (spec_mismatch_count q rest).
        pose proof (Bench.spec_sample_mismatches_range q i). lia.
    + unfold report. cbn [fst snd]. rewrite Herr.
      split; [reflexivity |]. split; [apply Bench.spec_mismatch_count_zero |]. split.
      * intros H0. rewrite H0. reflexivity.
      * intros Hn. apply Z.eqb_neq in Hn. rewrite Hn. reflexivity.
  - unfold main. rewrite Bench.sweep_is_run.
    destruct (run q (sweep_samples 64) initial); reflexivity.
Qed.

(** C6, as stated, fails: the reference maps the white point to chroma
    127, not 128. *)
Lemma reference_white_chroma_is_not_128 :
  snd (fst (RGB2YCbCr_sw 255 255 255)) <> 128 /\
  snd (RGB2YCbCr_sw 255 255 255) <> 128.
Proof. split; vm_compute; discriminate. Qed.

(** C6, amended: the reference maps the white point (255,255,255) to
    Y = 255, Cb = 127, Cr = 127. *)
Theorem reference_white_point :
  RGB2YCbCr_sw 255 255 255 = (255, 127, 127).
Proof. vm_compute. reflexivity. Qed.

(** C7, as stated, fails: for (100,150,200) the fixed-point luma is 15
    below the reference luma. *)
Lemma fixpt_scenario_luma_off_by_15 :
  ~ Z.abs (Y (convert_fixpt Fixpt.AP_TRN (mkRGB 100 150 200))
           - fst (fst (RGB2YCbCr_sw 100 150 200))) <= 5 /\
  ~ Z.abs (Y (convert_fixpt Fixpt.AP_RND (mkRGB 100 150 200))
           - fst (fst (RGB2YCbCr_sw 100 150 200))) <= 5.
Proof. split; vm_compute; intros H; apply H; reflexivity. Qed.

(** C7, amended: for (100,150,200) the reference returns exactly
    Y = 140, Cb = 161, Cr = 98 and the fixed-point converter returns
    Y = 125, Cb = 157, Cr = 102: Cb and Cr are within 5 of the
    reference, Y is 15 below it. *)
Theorem scenario_100_150_200 q :
  RGB2YCbCr_sw 100 150 200 = (140, 161, 98) /\
  convert_fixpt q (mkRGB 100 150 200) = mkYCbCr 125 157 102.
Proof. split; [| destruct q]; vm_compute; reflexivity. Qed.

(** C8: a step of [RGB2YCbCr_smarthls] on a non-empty input channel and
    a non-full output channel removes exactly the head of the input,
    appends exactly one sample to the output, a function of the sample
    read alone, and changes nothing else. *)
Theorem smarthls_one_in_one_out
    q (fin : Fifo.t RGB) (fout : Fifo.t YCbCr) (i : RGB) rest :
  Fifo.items fin = i :: rest ->
  (Fifo.occupancy fout < Fifo.depth fout)%nat ->
  exists fin' fout',
    RGB2YCbCr_smarthls q fin fout = Some (fin', fout') /\
    Fifo.items fin' = rest /\
    Fifo.items fout' = Fifo.items fout ++ [convert_fixpt q i] /\
    Fifo.depth fin' = Fifo.depth fin /\
    Fifo.depth fout' = Fifo.depth fout /\
    S (Fifo.occupancy fin') = Fifo.occupancy fin /\
    Fifo.occupancy fout' = S (Fifo.occupancy fout).
Proof.
  intros Hin Hout.
  exists (Fifo.mk (Fifo.depth fin) rest),
         (Fifo.mk (Fifo.depth fout) (Fifo.items fout ++ [convert_fixpt q i])).
  split; [apply Bench.smarthls_step; assumption |].
  unfold Fifo.occupancy. cbn [Fifo.items Fifo.depth].
  rewrite Hin, length_app. cbn [List.length].
  repeat split; lia.
Qed.

Lemma smarthls_one_in_one_out_witness :
  exists fin' fout',
    RGB2YCbCr_smarthls Fixpt.AP_TRN
      (Fifo.mk 5 [mkRGB 1 2 3; mkRGB 4 5 6]) (Fifo.mk 5 [mkYCbCr 7 8 9]) =
      Some (fin', fout') /\
    Fifo.items fin' = [mkRGB 4 5 6] /\
    Fifo.items fout' =
      [mkYCbCr 7 8 9] ++ [convert_fixpt Fixpt.AP_TRN (mkRGB 1 2 3)] /\
    Fifo.depth fin' = 5%nat /\
    Fifo.depth fout' = 5%nat /\
    S (Fifo.occupancy fin') = 2%nat /\
    Fifo.occupancy fout' = 2%nat.
Proof.
  apply (smarthls_one_in_one_out Fixpt.AP_TRN
           (Fifo.mk 5 [mkRGB 1 2 3; mkRGB 4 5 6]) (Fifo.mk 5 [mkYCbCr 7 8 9])
           (mkRGB 1 2 3) [mkRGB 4 5 6]);
    [reflexivity | cbn; lia].
Defined.

(** C9: for every 8-bit input the three fixed-point results lie in
    [0, 255] (raw value in [0, 255 * 64]) before they are narrowed, they
    fit the 18-bit type, and the narrowing to 8 bits keeps the integer
    part without wrapping. *)
Theorem fixpt_results_fit_8_bits q (r g b : Z) :
  0 <= r <= 255 -> 0 <= g <= 255 -> 0 <= b <= 255 ->
  let i := mkRGB r g b in
  (0 <= Y_fixpt q i <= 255 * 2 ^ Fixpt.F /\
   0 <= Cb_fixpt q i <= 255 * 2 ^ Fixpt.F /\
   0 <= Cr_fixpt q i <= 255 * 2 ^ Fixpt.F) /\
  (Fixpt.wrap Fixpt.W (Y_fixpt q i) = Y_fixpt q i /\
   Fixpt.wrap Fixpt.W (Cb_fixpt q i) = Cb_fixpt q i /\
   Fixpt.wrap Fixpt.W (Cr_fixpt q i) = Cr_fixpt q i) /\
  convert_fixpt q i =
    mkYCbCr (Y_fixpt q i / 2 ^ Fixpt.F) (Cb_fixpt q i / 2 ^ Fixpt.F)
            (Cr_fixpt q i / 2 ^ Fixpt.F).
Proof.
  intros Hr Hg Hb i.
  destruct (Agreement.fixpt_range q r g b Hr Hg Hb) as (HY & HCb & HCr).
  fold i in HY, HCb, HCr.
  change (2 ^ Fixpt.F) with 64.
  assert (Hwrap : forall x, 0 <= x < 16384 -> Fixpt.wrap Fixpt.W x = x).
  { intros x Hx. unfold Fixpt.wrap, Fixpt.W.
    change (2 ^ (18 - 1)) with 131072. change (2 ^ 18) with 262144.
    rewrite Z.mod_small by lia. lia. }
  split; [lia |]. split.
  - split; [| split]; apply Hwrap; lia.
  - unfold convert_fixpt.
    rewrite !Fixed.to_uint8_small by lia. reflexivity.
Qed.

Lemma fixpt_results_fit_8_bits_witness :
  let i := mkRGB 255 255 255 in
  (0 <= Y_fixpt Fixpt.AP_TRN i <= 255 * 2 ^ Fixpt.F /\
   0 <= Cb_fixpt Fixpt.AP_TRN i <= 255 * 2 ^ Fixpt.F /\
   0 <= Cr_fixpt Fixpt.AP_TRN i <= 255 * 2 ^ Fixpt.F) /\
  (Fixpt.wrap Fixpt.W (Y_fixpt Fixpt.AP_TRN i) = Y_fixpt Fixpt.AP_TRN i /\
   Fixpt.wrap Fixpt.W (Cb_fixpt Fixpt.AP_TRN i) = Cb_fixpt Fixpt.AP_TRN i /\
   Fixpt.wrap Fixpt.W (Cr_fixpt Fixpt.AP_TRN i) = Cr_fixpt Fixpt.AP_TRN i) /\
  convert_fixpt Fixpt.AP_TRN i =
    mkYCbCr (Y_fixpt Fixpt.AP_TRN i / 2 ^ Fixpt.F)
            (Cb_fixpt Fixpt.AP_TRN i / 2 ^ Fixpt.F)
            (Cr_fixpt Fixpt.AP_TRN i / 2 ^ Fixpt.F).
Proof.
  apply (fixpt_results_fit_8_bits Fixpt.AP_TRN 255 255 255); lia.
Defined.

(** C10: the fixed-point converter maps the black point (0,0,0) to
    Y = 4, Cb = 128, Cr = 128, the reference maps it to (0, 128, 128),
    and the two agree within the threshold. *)
Theorem black_point q :
  convert_fixpt q (mkRGB 0 0 0) = mkYCbCr 4 128 128 /\
  RGB2YCbCr_sw 0 0 0 = (0, 128, 128) /\
  within_threshold (convert_fixpt q (mkRGB 0 0 0)) (RGB2YCbCr_sw 0 0 0).
Proof.
  assert (Hsw : RGB2YCbCr_sw 0 0 0 = (0, 128, 128)) by (vm_compute; reflexivity).
  assert (Hfx : convert_fixpt q (mkRGB 0 0 0) = mkYCbCr 4 128 128)
    by (destruct q; vm_compute; reflexivity).
  split; [exact Hfx |]. split; [exact Hsw |].
  rewrite Hfx, Hsw. unfold within_threshold, THRESHOLD. cbn [Y Cb Cr fst snd].
  repeat split; lia.
Qed.

(* ================================================================= *)
(** ** Helper lemmas for the further properties *)

Module Enumeration.

Lemma in_zrange (n : nat) : forall lo x, In x (zrange lo n) <-> lo <= x < lo + Z.of_nat n.
Proof.
  induction n as [| n IH]; intros lo x; cbn [zrange In].
  - lia.
  - rewrite IH. lia.
Qed.

Lemma all_in_range_spec (lo : Z) (len : nat) (f : Z -> bool) :
  all_in_range lo len f = true ->
  forall n, lo <= n < lo + Z.of_nat len -> f n = true.
Proof.
  unfold all_in_range. intros H n Hn.
  rewrite forallb_forall in H. apply H, in_zrange. exact Hn.
Qed.

Lemma length_zrange (n : nat) : forall lo, List.length (zrange lo n) = n.
Proof. induction n as [| n IH]; intros lo; cbn; [reflexivity | rewrite IH; reflexivity]. Qed.

End Enumeration.

Module Accuracy.

Section Units.
Variable U : Z.
Hypothesis HU : 2 ^ GRID = 2 ^ 60 * U.

(** The clamped and truncated value of a number within [2^-8] of
    [ex / 2^60], itself within [2^-10] of [s / 10000]. *)
Lemma floor_sat_units (ex v s : Z) :
  Z.abs (10000 * ex - 2 ^ 60 * s) <= 10000 * 2 ^ 50 ->
  Z.abs (v - ex * U) <= 2 ^ 52 * U ->
  10000 * (Z.min (255 * (2 ^ 60 * U)) (Z.max 0 v) / (2 ^ 60 * U))
    <= clamp_decimal s + 50 /\
  clamp_decimal s
    < 10000 * (Z.min (255 * (2 ^ 60 * U)) (Z.max 0 v) / (2 ^ 60 * U)) + 10050.
Proof.
  intros Hs Hv.
  pose proof (Reference.U_pos U HU) as HUp.
  apply Z.abs_le in Hv. apply Z.abs_le in Hs.
  Agreement.floor_of (Z.min (255 * (2 ^ 60 * U)) (Z.max 0 v)) (2 ^ 60 * U).
  assert (Hs1 : (- (10000 * 2 ^ 50)) * U <= (10000 * ex - 2 ^ 60 * s) * U)
    by (apply Z.mul_le_mono_nonneg_r; lia).
  assert (Hs2 : (10000 * ex - 2 ^ 60 * s) * U <= (10000 * 2 ^ 50) * U)
    by (apply Z.mul_le_mono_nonneg_r; lia).
  unfold clamp_decimal.
  assert (Hsat : exists t, Z.min 2550000 (Z.max 0 s) = t /\
            ((t = 0 /\ s <= 0) \/ (t = s /\ 0 <= s <= 2550000) \/
             (t = 2550000 /\ 2550000 <= s))) by (eexists; split; [reflexivity | lia]).
  destruct Hsat as (t & -> & Ht).
  assert (Hq : 0 <= q <= 255).
  { split.
    - destruct (Z.le_gt_cases 0 q) as [H | H]; [exact H | exfalso].
      assert (H' : (q + 1) * U <= 0 * U) by (apply Z.mul_le_mono_nonneg_r; lia).
      lia.
    - destruct (Z.le_gt_cases q 255) as [H | H]; [exact H | exfalso].
      assert (H' : 256 * U <= q * U) by (apply Z.mul_le_mono_nonneg_r; lia).
      lia. }
  destruct Ht as [[-> Ht] | [[-> Ht] | [-> Ht]]].
  - assert (Hneg : s * U <= 0 * U) by (apply Z.mul_le_mono_nonneg_r; lia).
    split; [| lia].
    destruct (Z.le_gt_cases q 0) as [H | H]; [lia | exfalso].
    assert (H' : 1 * U <= q * U) by (apply Z.mul_le_mono_nonneg_r; lia).
    lia.
  - split.
    + destruct (Z.le_gt_cases (10000 * q) (s + 50)) as [H | H]; [exact H | exfalso].
      assert (H' : (s + 51) * U <= (10000 * q) * U)
        by (apply Z.mul_le_mono_nonneg_r; lia).
      lia.
    + destruct (Z.le_gt_cases (10000 * q + 10050) s) as [H | H]; [exfalso | exact H].
      assert (H' : (10000 * q + 10050) * U <= s * U)
        by (apply Z.mul_le_mono_nonneg_r; lia).
      assert (H'' : (q + 1) * U <= 255 * U)
        by (apply Z.mul_le_mono_nonneg_r; lia).
      lia.
  - assert (Hbig : 2550000 * U <= s * U) by (apply Z.mul_le_mono_nonneg_r; lia).
    split; [lia |].
    destruct (Z.le_gt_cases 254 q) as [H | H]; [lia | exfalso].
    assert (H' : (q + 1) * U <= 254 * U) by (apply Z.mul_le_mono_nonneg_r; lia).
    lia.
Qed.

(** A fixed-point channel [x / 64] against the clamped reference, as
    [Agreement.within_units], with the two margins [lo] and [hi]. *)
Lemma between_units (lo hi x ex v : Z) :
  0 <= lo -> 0 <= hi ->
  0 <= x < 16384 ->
  (x - 64 * hi) * 2 ^ 54 + 2 ^ 52 <= ex ->
  ex + 2 ^ 52 < (x - 63) * 2 ^ 54 + (lo + 1) * 2 ^ 60 ->
  Z.abs (v - ex * U) <= 2 ^ 52 * U ->
  - lo <= Fixpt.to_uint8 x
          - Z.min (255 * (2 ^ 60 * U)) (Z.max 0 v) / (2 ^ 60 * U) <= hi.
Proof.
  intros Hl Hh Hx Hlo Hhi Hv.
  pose proof (Reference.U_pos U HU) as HUp.
  rewrite Fixed.to_uint8_small by assumption.
  apply Z.abs_le in Hv.
  Agreement.floor_of x 64.
  Agreement.floor_of (Z.min (255 * (2 ^ 60 * U)) (Z.max 0 v)) (2 ^ 60 * U).
  assert (Hlo' : ((x - 64 * hi) * 2 ^ 54 + 2 ^ 52) * U <= ex * U)
    by (apply Z.mul_le_mono_nonneg_r; lia).
  assert (Hhi' : (ex + 2 ^ 52) * U < ((x - 63) * 2 ^ 54 + (lo + 1) * 2 ^ 60) * U)
    by (apply Z.mul_lt_mono_pos_r; lia).
  assert (Hq1 : (64 * q) * U <= x * U) by (apply Z.mul_le_mono_nonneg_r; lia).
  assert (Hq2 : x * U <= (64 * q + 63) * U) by (apply Z.mul_le_mono_nonneg_r; lia).
  assert (Hq3 : 0 * U <= q * U <= 255 * U)
    by (split; apply Z.mul_le_mono_nonneg_r; lia).
  assert (Hh3 : 0 * U <= hi * U) by (apply Z.mul_le_mono_nonneg_r; lia).
  assert (Hl3 : 0 * U <= lo * U) by (apply Z.mul_le_mono_nonneg_r; lia).
  split.
  - destruct (Z.le_gt_cases q0 (q + lo)) as [H | H]; [lia | exfalso].
    assert (H' : (q + lo + 1) * U <= q0 * U) by (apply Z.mul_le_mono_nonneg_r; lia).
    lia.
  - destruct (Z.le_gt_cases (q - hi) q0) as [H | H]; [lia | exfalso].
    assert (H' : (q0 + 1) * U <= (q - hi) * U) by (apply Z.mul_le_mono_nonneg_r; lia).
    lia.
Qed.

Lemma Y_decimal_units (r g b : Z) :
  0 <= r <= 255 -> 0 <= g <= 255 -> 0 <= b <= 255 ->
  10000 * clamp (Y_float r g b) <= clamp_decimal (Y_decimal r g b) + 50 /\
  clamp_decimal (Y_decimal r g b) < 10000 * clamp (Y_float r g b) + 10050.
Proof.
  intros Hr Hg Hb.
  destruct (Reference.Y_float_bound U HU r g b) as [Gy Ey]; try lia.
  rewrite (Clamp.clamp_on_grid GRID _ ltac:(unfold GRID; lia) Gy), HU.
  apply (floor_sat_units (Y_exact r g b)); [| exact Ey].
  unfold Y_exact, Y_decimal. apply Z.abs_le. lia.
Qed.

Lemma Cb_decimal_units (r g b : Z) :
  0 <= r <= 255 -> 0 <= g <= 255 -> 0 <= b <= 255 ->
  10000 * clamp (Cb_float r g b) <= clamp_decimal (Cb_decimal r g b) + 50 /\
  clamp_decimal (Cb_decimal r g b) < 10000 * clamp (Cb_float r g b) + 10050.
Proof.
  intros Hr Hg Hb.
  destruct (Reference.Cb_float_bound U HU r g b) as [Gy Ey]; try lia.
  rewrite (Clamp.clamp_on_grid GRID _ ltac:(unfold GRID; lia) Gy), HU.
  apply (floor_sat_units (Cb_exact r g b)); [| exact Ey].
  unfold Cb_exact, Cb_decimal. apply Z.abs_le. lia.
Qed.

Lemma Cr_decimal_units (r g b : Z) :
  0 <= r <= 255 -> 0 <= g <= 255 -> 0 <= b <= 255 ->
  10000 * clamp (Cr_float r g b) <= clamp_decimal (Cr_decimal r g b) + 50 /\
  clamp_decimal (Cr_decimal r g b) < 10000 * clamp (Cr_float r g b) + 10050.
Proof.
  intros Hr Hg Hb.
  destruct (Reference.Cr_float_bound U HU r g b) as [Gy Ey]; try lia.
  rewrite (Clamp.clamp_on_grid GRID _ ltac:(unfold GRID; lia) Gy), HU.
  apply (floor_sat_units (Cr_exact r g b)); [| exact Ey].
  unfold Cr_exact, Cr_decimal. apply Z.abs_le. lia.
Qed.

Lemma Y_between q (r g b : Z) :
  0 <= r <= 255 -> 0 <= g <= 255 -> 0 <= b <= 255 ->
  - 32 <= Y (convert_fixpt q (mkRGB r g b)) - clamp (Y_float r g b) <= 5.
Proof.
  intros Hr Hg Hb. cbn [convert_fixpt Y].
  destruct (Reference.Y_float_bound U HU r g b) as [Gy Ey]; try lia.
  destruct (Agreement.fixpt_range q r g b Hr Hg Hb) as (HY & _).
  rewrite (Clamp.clamp_on_grid GRID _ ltac:(unfold GRID; lia) Gy), HU.
  apply (between_units 32 5 _ (Y_exact r g b)); [lia | lia | lia | | | exact Ey];
    clear HY; rewrite Fixed.Y_fixpt_eq; unfold Y_exact;
    destruct q; cbn [c129_057];
    match goal with
    | |- context [?a / 256] => Agreement.floor_of a 256
    end; lia.
Qed.

Lemma Cb_between q (r g b : Z) :
  0 <= r <= 255 -> 0 <= g <= 255 -> 0 <= b <= 255 ->
  - 16 <= Cb (convert_fixpt q (mkRGB r g b)) - clamp (Cb_float r g b) <= 17.
Proof.
  intros Hr Hg Hb. cbn [convert_fixpt Cb].
  destruct (Reference.Cb_float_bound U HU r g b) as [Gy Ey]; try lia.
  destruct (Agreement.fixpt_range q r g b Hr Hg Hb) as (_ & HCb & _).
  rewrite (Clamp.clamp_on_grid GRID _ ltac:(unfold GRID; lia) Gy), HU.
  apply (between_units 16 17 _ (Cb_exact r g b)); [lia | lia | lia | | | exact Ey];
    clear HCb; rewrite Fixed.Cb_fixpt_eq; unfold Cb_exact;
    destruct q; cbn [c74_494];
    match goal with
    | |- context [?a / 256] => Agreement.floor_of a 256
    end; lia.
Qed.

Lemma Cr_between q (r g b : Z) :
  0 <= r <= 255 -> 0 <= g <= 255 -> 0 <= b <= 255 ->
  - 16 <= Cr (convert_fixpt q (mkRGB r g b)) - clamp (Cr_float r g b) <= 17.
Proof.
  intros Hr Hg Hb. cbn [convert_fixpt Cr].
  destruct (Reference.Cr_float_bound U HU r g b) as [Gy Ey]; try lia.
  destruct (Agreement.fixpt_range q r g b Hr Hg Hb) as (_ & _ & HCr).
  rewrite (Clamp.clamp_on_grid GRID _ ltac:(unfold GRID; lia) Gy), HU.
  apply (between_units 16 17 _ (Cr_exact r g b)); [lia | lia | lia | | | exact Ey];
    clear HCr; rewrite Fixed.Cr_fixpt_eq; unfold Cr_exact;
    destruct q; cbn [c94_154];
    match goal with
    | |- context [?a / 256] => Agreement.floor_of a 256
    end; lia.
Qed.

End Units.

End Accuracy.

Module Harness.

Lemma mismatch_lines_app (l1 l2 : list event) :
  mismatch_lines (l1 ++ l2) = mismatch_lines l1 + mismatch_lines l2.
Proof.
  unfold mismatch_lines. rewrite filter_app, length_app. lia.
Qed.

Lemma compareAndReport_lines a b l t :
  mismatch_lines (fst (compareAndReport a b l t)) = snd (compareAndReport a b l t) /\
  forallb is_mismatch_line (fst (compareAndReport a b l t)) = true.
Proof.
  unfold compareAndReport. destruct (t <? Z.abs (a - b)); split; reflexivity.
Qed.

Lemma value_check_lines out sw e log :
  mismatch_lines (snd (value_check out sw e log)) - fst (value_check out sw e log)
    = mismatch_lines log - e /\
  (forallb is_mismatch_line log = true ->
   forallb is_mismatch_line (snd (value_check out sw e log)) = true).
Proof.
  destruct sw as [[y cb] cr]. unfold value_check.
  pose proof (compareAndReport_lines (Y out) y "Y" THRESHOLD) as [H1 A1].
  pose proof (compareAndReport_lines (Cb out) cb "Cb" THRESHOLD) as [H2 A2].
  pose proof (compareAndReport_lines (Cr out) cr "Cr" THRESHOLD) as [H3 A3].
  destruct (compareAndReport (Y out) y "Y" THRESHOLD) as [l1 r1].
  destruct (compareAndReport (Cb out) cb "Cb" THRESHOLD) as [l2 r2].
  destruct (compareAndReport (Cr out) cr "Cr" THRESHOLD) as [l3 r3].
  cbn [fst snd] in *. split.
  - rewrite !mismatch_lines_app. lia.
  - intros A. rewrite !forallb_app, A, A1, A2, A3. reflexivity.
Qed.

Lemma run_lines q (samples : list RGB) :
  forall st, idle st ->
    exists st', run q samples st = Some st' /\ idle st' /\
      mismatch_lines (printed st') - err st' = mismatch_lines (printed st) - err st /\
      (forallb is_mismatch_line (printed st) = true ->
       forallb is_mismatch_line (printed st') = true).
Proof.
  induction samples as [| i rest IH]; intros st Hidle; cbn [run].
  - exists st. split; [reflexivity |]. split; [exact Hidle |]. split; [reflexivity | auto].
  - rewrite (Bench.check_sample_idle q i st Hidle).
    set (st1 := mkBench _ _ _ _).
    assert (Hidle1 : idle st1) by (unfold idle, st1; cbn [input_fifo output_fifo]; exact Hidle).
    destruct (IH st1 Hidle1) as (st' & Hrun & Hidle' & Hcount & Hall).
    exists st'. split; [exact Hrun |]. split; [exact Hidle' |].
    unfold st1 in Hcount, Hall. cbn [err printed] in Hcount, Hall.
    unfold checked in Hcount, Hall.
    destruct (value_check_lines (convert_fixpt q i) (RGB2YCbCr_sw (R i) (G i) (B i))
                (err st) (printed st)) as [Hc Ha].
    split; [lia | auto].
Qed.

Lemma idle_initial_with (din dout : nat) :
  (0 < din)%nat -> (0 < dout)%nat -> idle (initial_with din dout).
Proof. intros H1 H2. unfold idle, initial_with. cbn. auto. Qed.

(** The count and the printed lines of a run do not depend on the
    channels of the idle bench it starts from. *)
Lemma run_any_idle q (samples : list RGB) :
  forall st1 st2, idle st1 -> idle st2 ->
    err st1 = err st2 -> printed st1 = printed st2 ->
    exists st1' st2',
      run q samples st1 = Some st1' /\ run q samples st2 = Some st2' /\
      idle st1' /\ err st1' = err st2' /\ printed st1' = printed st2'.
Proof.
  induction samples as [| i rest IH]; intros st1 st2 I1 I2 He Hp; cbn [run].
  - exists st1, st2. auto.
  - rewrite (Bench.check_sample_idle q i st1 I1), (Bench.check_sample_idle q i st2 I2).
    rewrite <- He, <- Hp.
    apply IH; try reflexivity.
    + unfold idle. cbn [input_fifo output_fifo]. exact I1.
    + unfold idle. cbn [input_fifo output_fifo]. exact I2.
Qed.

Lemma in_sweep_samples (n : nat) (i : RGB) :
  In i (sweep_samples n) <->
  exists r g b, (0 <= r < Z.of_nat n) /\ (0 <= g < Z.of_nat n) /\
                (0 <= b < Z.of_nat n) /\
                i = mkRGB (ap_uint8 r) (ap_uint8 g) (ap_uint8 b).
Proof.
  unfold sweep_samples. rewrite in_flat_map. split.
  - intros (r & Hr & H). rewrite in_flat_map in H. destruct H as (g & Hg & H).
    rewrite in_map_iff in H. destruct H as (b & <- & Hb).
    apply Enumeration.in_zrange in Hr, Hg, Hb.
    exists r, g, b. repeat split; lia.
  - intros (r & g & b & Hr & Hg & Hb & ->).
    exists r. split; [apply Enumeration.in_zrange; lia |].
    rewrite in_flat_map. exists g. split; [apply Enumeration.in_zrange; lia |].
    rewrite in_map_iff. exists b. split; [reflexivity | apply Enumeration.in_zrange; lia].
Qed.

Lemma length_flat_map_const {A B : Type} (f : A -> list B) (k : nat) (l : list A) :
  (forall x, List.length (f x) = k) ->
  List.length (flat_map f l) = (List.length l * k)%nat.
Proof.
  intros Hf. induction l as [| x l IH]; cbn [flat_map List.length]; [reflexivity |].
  rewrite length_app, Hf, IH. lia.
Qed.

End Harness.

(* ================================================================= *)
(** ** Further properties of the code *)

(** X1: [clamp] maps a NaN and plus infinity to 255, and minus
    infinity, both zeros and every negative number to 0. *)
Theorem clamp_special_values :
  clamp S754_nan = 255 /\
  clamp (S754_infinity false) = 255 /\
  clamp (S754_infinity true) = 0 /\
  (forall s, clamp (S754_zero s) = 0) /\
  (forall m e, clamp (S754_finite true m e) = 0).
Proof.
  split; [vm_compute; reflexivity |].
  split; [vm_compute; reflexivity |].
  split; [vm_compute; reflexivity |].
  split; [intros [|]; vm_compute; reflexivity |].
  intros m e.
  rewrite (Clamp.clamp_on_grid (Z.max 16 (- e))) by (cbn [IEEE.on_grid]; lia).
  cbn [IEEE.scaled cond_Zopp].
  pose proof (Grid.scaled_finite_pos (Z.max 16 (- e)) m e ltac:(lia)) as Hp.
  pose proof (Rounding.pow2_pos (Z.max 16 (- e)) ltac:(lia)) as HU.
  set (P := Zpos m * 2 ^ (e + Z.max 16 (- e))) in *.
  rewrite (Z.max_l 0 (- P)), (Z.min_r _ 0) by lia. apply Z.div_0_l. lia.
Qed.

(** X2: [clamp] is monotone on finite numbers: a larger value never
    gets a smaller result. *)
Theorem clamp_monotone (K : Z) (x y : spec_float) :
  16 <= K -> IEEE.on_grid K x -> IEEE.on_grid K y ->
  IEEE.scaled K x <= IEEE.scaled K y ->
  clamp x <= clamp y.
Proof.
  intros HK Hx Hy Hle.
  rewrite (Clamp.clamp_on_grid K x HK Hx), (Clamp.clamp_on_grid K y HK Hy).
  pose proof (Rounding.pow2_pos K ltac:(lia)) as HU.
  apply Z.div_le_mono; lia.
Qed.

Lemma clamp_monotone_witness :
  clamp (S754_finite false 3 (-1)) <= clamp (S754_finite false 401 (-1)).
Proof.
  apply (clamp_monotone 16); [lia | cbn; lia | cbn; lia | vm_compute; discriminate].
Defined.

(** X3: an 8-bit integer survives the conversion to [float] and back
    through [clamp]. *)
Theorem clamp_of_int_round_trip (n : Z) :
  0 <= n <= 255 -> clamp (F32.of_int n) = n.
Proof.
  intros Hn. apply Z.eqb_eq.
  apply (Enumeration.all_in_range_spec 0 256 (fun n => clamp (F32.of_int n) =? n));
    [vm_compute; reflexivity | lia].
Qed.

Lemma clamp_of_int_round_trip_witness : clamp (F32.of_int 200) = 200.
Proof. apply (clamp_of_int_round_trip 200); lia. Defined.

(** X4: for every 8-bit input the fixed-point converter returns a luma
    in [4, 223] and chromas in [16, 240]. *)
Theorem fixpt_output_range q (r g b : Z) :
  0 <= r <= 255 -> 0 <= g <= 255 -> 0 <= b <= 255 ->
  4 <= Y (convert_fixpt q (mkRGB r g b)) <= 223 /\
  16 <= Cb (convert_fixpt q (mkRGB r g b)) <= 240 /\
  16 <= Cr (convert_fixpt q (mkRGB r g b)) <= 240.
Proof.
  intros Hr Hg Hb.
  destruct (Agreement.fixpt_range q r g b Hr Hg Hb) as (HY & HCb & HCr).
  cbn [convert_fixpt Y Cb Cr].
  rewrite !Fixed.to_uint8_small by lia.
  Agreement.floor_of (Y_fixpt q (mkRGB r g b)) 64.
  Agreement.floor_of (Cb_fixpt q (mkRGB r g b)) 64.
  Agreement.floor_of (Cr_fixpt q (mkRGB r g b)) 64.
  lia.
Qed.

Lemma fixpt_output_range_witness :
  4 <= Y (convert_fixpt Fixpt.AP_TRN (mkRGB 255 0 128)) <= 223 /\
  16 <= Cb (convert_fixpt Fixpt.AP_TRN (mkRGB 255 0 128)) <= 240 /\
  16 <= Cr (convert_fixpt Fixpt.AP_TRN (mkRGB 255 0 128)) <= 240.
Proof. apply (fixpt_output_range Fixpt.AP_TRN 255 0 128); lia. Defined.

(** X5: the fixed-point converter maps every gray (R = G = B) to the
    neutral chroma Cb = Cr = 128. *)
Theorem fixpt_gray_is_neutral q (g : Z) :
  0 <= g <= 255 ->
  Cb (convert_fixpt q (mkRGB g g g)) = 128 /\
  Cr (convert_fixpt q (mkRGB g g g)) = 128.
Proof.
  intros Hg.
  destruct (Agreement.fixpt_range q g g g Hg Hg Hg) as (_ & HCb & HCr).
  cbn [convert_fixpt Cb Cr].
  rewrite !Fixed.to_uint8_small by lia.
  rewrite Fixed.Cb_fixpt_eq, Fixed.Cr_fixpt_eq.
  destruct q; cbn [c74_494 c94_154].
  - Agreement.floor_of (2428 * g + 4767 * g - 7196 * g) 256.
    Agreement.floor_of (7196 * g - 6025 * g - 1170 * g) 256.
    Agreement.floor_of (8224 - q) 64. Agreement.floor_of (8224 + q0) 64. lia.
  - Agreement.floor_of (2428 * g + 4768 * g - 7196 * g) 256.
    Agreement.floor_of (7196 * g - 6026 * g - 1170 * g) 256.
    Agreement.floor_of (8224 - q) 64. Agreement.floor_of (8224 + q0) 64. lia.
Qed.

Lemma fixpt_gray_is_neutral_witness :
  Cb (convert_fixpt Fixpt.AP_TRN (mkRGB 255 255 255)) = 128 /\
  Cr (convert_fixpt Fixpt.AP_TRN (mkRGB 255 255 255)) = 128.
Proof. apply (fixpt_gray_is_neutral Fixpt.AP_TRN 255); lia. Defined.

(** X6: the fixed-point luma is monotone: raising R, G or B never
    lowers Y. *)
Theorem fixpt_luma_monotone q (r g b r' g' b' : Z) :
  0 <= r <= r' -> r' <= 255 -> 0 <= g <= g' -> g' <= 255 ->
  0 <= b <= b' -> b' <= 255 ->
  Y (convert_fixpt q (mkRGB r g b)) <= Y (convert_fixpt q (mkRGB r' g' b')).
Proof.
  intros Hr Hr' Hg Hg' Hb Hb'.
  destruct (Agreement.fixpt_range q r g b) as (HY & _); try lia.
  destruct (Agreement.fixpt_range q r' g' b') as (HY' & _); try lia.
  cbn [convert_fixpt Y].
  rewrite !Fixed.to_uint8_small by lia.
  apply Z.div_le_mono; [lia |].
  rewrite !Fixed.Y_fixpt_eq.
  apply Z.add_le_mono_l, Z.div_le_mono; [lia |].
  destruct q; cbn [c129_057]; lia.
Qed.

Lemma fixpt_luma_monotone_witness :
  Y (convert_fixpt Fixpt.AP_TRN (mkRGB 10 20 30))
    <= Y (convert_fixpt Fixpt.AP_TRN (mkRGB 11 200 30)).
Proof.
  apply (fixpt_luma_monotone Fixpt.AP_TRN 10 20 30 11 200 30); lia.
Defined.

(** X7: the fixed-point chromas are monotone: Cb rises with B and falls
    with R and G, Cr rises with R and falls with G and B. *)
Theorem fixpt_chroma_monotone q (r g b r' g' b' : Z) :
  0 <= r <= r' -> r' <= 255 -> 0 <= g <= g' -> g' <= 255 ->
  0 <= b <= b' -> b' <= 255 ->
  Cb (convert_fixpt q (mkRGB r' g' b)) <= Cb (convert_fixpt q (mkRGB r g b')) /\
  Cr (convert_fixpt q (mkRGB r g' b')) <= Cr (convert_fixpt q (mkRGB r' g b)).
Proof.
  intros Hr Hr' Hg Hg' Hb Hb'.
  destruct (Agreement.fixpt_range q r' g' b) as (_ & H1 & _); try lia.
  destruct (Agreement.fixpt_range q r g b') as (_ & H2 & _); try lia.
  destruct (Agreement.fixpt_range q r g' b') as (_ & _ & H3); try lia.
  destruct (Agreement.fixpt_range q r' g b) as (_ & _ & H4); try lia.
  cbn [convert_fixpt Cb Cr].
  rewrite !Fixed.to_uint8_small by lia.
  split; (apply Z.div_le_mono; [lia |]).
  - rewrite !Fixed.Cb_fixpt_eq.
    apply Z.sub_le_mono_l, Z.div_le_mono; [lia |].
    destruct q; cbn [c74_494]; lia.
  - rewrite !Fixed.Cr_fixpt_eq.
    apply Z.add_le_mono_l, Z.div_le_mono; [lia |].
    destruct q; cbn [c94_154]; lia.
Qed.

Lemma fixpt_chroma_monotone_witness :
  Cb (convert_fixpt Fixpt.AP_TRN (mkRGB 11 200 30))
    <= Cb (convert_fixpt Fixpt.AP_TRN (mkRGB 10 20 31)) /\
  Cr (convert_fixpt Fixpt.AP_TRN (mkRGB 10 200 31))
    <= Cr (convert_fixpt Fixpt.AP_TRN (mkRGB 11 20 30)).
Proof.
  apply (fixpt_chroma_monotone Fixpt.AP_TRN 10 20 30 11 200 31); lia.
Defined.

(** X8: each channel written by [RGB2YCbCr_smarthls] is the integer
    part of its formula read in decimal, up to an error of 1/16 in the
    formula's value (the quantisation of the coefficients and of the
    shift). *)
Theorem fixpt_follows_decimal_formulas q (r g b : Z) :
  0 <= r <= 255 -> 0 <= g <= 255 -> 0 <= b <= 255 ->
  let out := convert_fixpt q (mkRGB r g b) in
  (256000 * Y out <= Y_fixpt_decimal r g b + 16000 /\
   Y_fixpt_decimal r g b - 16000 < 256000 * (Y out + 1)) /\
  (256000 * Cb out <= Cb_fixpt_decimal r g b + 16000 /\
   Cb_fixpt_decimal r g b - 16000 < 256000 * (Cb out + 1)) /\
  (256000 * Cr out <= Cr_fixpt_decimal r g b + 16000 /\
   Cr_fixpt_decimal r g b - 16000 < 256000 * (Cr out + 1)).
Proof.
  intros Hr Hg Hb out. unfold out. clear out.
  destruct (Agreement.fixpt_range q r g b Hr Hg Hb) as (HY & HCb & HCr).
  cbn [convert_fixpt Y Cb Cr].
  rewrite !Fixed.to_uint8_small by lia. clear HY HCb HCr.
  rewrite Fixed.Y_fixpt_eq, Fixed.Cb_fixpt_eq, Fixed.Cr_fixpt_eq.
  unfold Y_fixpt_decimal, Cb_fixpt_decimal, Cr_fixpt_decimal.
  destruct q; cbn [c129_057 c74_494 c94_154].
  - Agreement.floor_of (4207 * r + 8259 * g + 1604 * b) 256.
    Agreement.floor_of (2428 * r + 4767 * g - 7196 * b) 256.
    Agreement.floor_of (7196 * r - 6025 * g - 1170 * b) 256.
    Agreement.floor_of (288 + q) 64.
    Agreement.floor_of (8224 - q0) 64.
    Agreement.floor_of (8224 + q1) 64.
    lia.
  - Agreement.floor_of (4207 * r + 8260 * g + 1604 * b) 256.
    Agreement.floor_of (2428 * r + 4768 * g - 7196 * b) 256.
    Agreement.floor_of (7196 * r - 6026 * g - 1170 * b) 256.
    Agreement.floor_of (288 + q) 64.
    Agreement.floor_of (8224 - q0) 64.
    Agreement.floor_of (8224 + q1) 64.
    lia.
Qed.

Lemma fixpt_follows_decimal_formulas_witness :
  let out := convert_fixpt Fixpt.AP_TRN (mkRGB 12 200 99) in
  (256000 * Y out <= Y_fixpt_decimal 12 200 99 + 16000 /\
   Y_fixpt_decimal 12 200 99 - 16000 < 256000 * (Y out + 1)) /\
  (256000 * Cb out <= Cb_fixpt_decimal 12 200 99 + 16000 /\
   Cb_fixpt_decimal 12 200 99 - 16000 < 256000 * (Cb out + 1)) /\
  (256000 * Cr out <= Cr_fixpt_decimal 12 200 99 + 16000 /\
   Cr_fixpt_decimal 12 200 99 - 16000 < 256000 * (Cr out + 1)).
Proof.
  apply (fixpt_follows_decimal_formulas Fixpt.AP_TRN 12 200 99); lia.
Defined.

(** X9: [k] successive steps move the first [k] samples of the input
    channel to the output channel, converted, in their order. *)
Theorem steps_preserve_order q (k : nat) :
  forall (fin : Fifo.t RGB) (fout : Fifo.t YCbCr),
    (k <= Fifo.occupancy fin)%nat ->
    (Fifo.occupancy fout + k <= Fifo.depth fout)%nat ->
    steps q k fin fout =
      Some (Fifo.mk (Fifo.depth fin) (skipn k (Fifo.items fin)),
            Fifo.mk (Fifo.depth fout)
              (Fifo.items fout ++ map (convert_fixpt q) (firstn k (Fifo.items fin)))).
Proof.
  induction k as [| k IH]; intros fin fout Hin Hout; cbn [steps].
  - cbn [skipn firstn map]. rewrite app_nil_r. destruct fin, fout; reflexivity.
  - unfold Fifo.occupancy in Hin.
    destruct (Fifo.items fin) as [| i rest] eqn:Hitems; cbn [List.length] in Hin; [lia |].
    rewrite (Bench.smarthls_step q fin fout i rest Hitems) by lia.
    rewrite IH.
    + cbn [Fifo.depth Fifo.items skipn firstn map]. rewrite <- app_assoc. reflexivity.
    + unfold Fifo.occupancy. cbn [Fifo.items]. lia.
    + unfold Fifo.occupancy in *. cbn [Fifo.items Fifo.depth].
      rewrite length_app. cbn [List.length]. lia.
Qed.

Lemma steps_preserve_order_witness :
  steps Fixpt.AP_TRN 2 (Fifo.mk 5 [mkRGB 1 2 3; mkRGB 4 5 6; mkRGB 7 8 9])
        (Fifo.mk 5 [mkYCbCr 0 0 0]) =
    Some (Fifo.mk 5 (skipn 2 [mkRGB 1 2 3; mkRGB 4 5 6; mkRGB 7 8 9]),
          Fifo.mk 5 ([mkYCbCr 0 0 0] ++
             map (convert_fixpt Fixpt.AP_TRN)
                 (firstn 2 [mkRGB 1 2 3; mkRGB 4 5 6; mkRGB 7 8 9]))).
Proof.
  apply (steps_preserve_order Fixpt.AP_TRN 2
           (Fifo.mk 5 [mkRGB 1 2 3; mkRGB 4 5 6; mkRGB 7 8 9])
           (Fifo.mk 5 [mkYCbCr 0 0 0])); cbn; lia.
Defined.

(** X10: each channel of [RGB2YCbCr_sw] is the integer part of its
    formula read in decimal and clamped to [0, 255], up to an error of
    0.005 in the formula's value. *)
Theorem reference_follows_decimal_formulas (r g b : Z) :
  0 <= r <= 255 -> 0 <= g <= 255 -> 0 <= b <= 255 ->
  let '(y, cb, cr) := RGB2YCbCr_sw r g b in
  (10000 * y <= clamp_decimal (Y_decimal r g b) + 50 /\
   clamp_decimal (Y_decimal r g b) < 10000 * y + 10050) /\
  (10000 * cb <= clamp_decimal (Cb_decimal r g b) + 50 /\
   clamp_decimal (Cb_decimal r g b) < 10000 * cb + 10050) /\
  (10000 * cr <= clamp_decimal (Cr_decimal r g b) + 50 /\
   clamp_decimal (Cr_decimal r g b) < 10000 * cr + 10050).
Proof.
  intros Hr Hg Hb. unfold RGB2YCbCr_sw.
  split; [| split].
  - exact (Accuracy.Y_decimal_units _ Agreement.unit_split r g b Hr Hg Hb).
  - exact (Accuracy.Cb_decimal_units _ Agreement.unit_split r g b Hr Hg Hb).
  - exact (Accuracy.Cr_decimal_units _ Agreement.unit_split r g b Hr Hg Hb).
Qed.

Lemma reference_follows_decimal_formulas_witness :
  let '(y, cb, cr) := RGB2YCbCr_sw 0 0 255 in
  (10000 * y <= clamp_decimal (Y_decimal 0 0 255) + 50 /\
   clamp_decimal (Y_decimal 0 0 255) < 10000 * y + 10050) /\
  (10000 * cb <= clamp_decimal (Cb_decimal 0 0 255) + 50 /\
   clamp_decimal (Cb_decimal 0 0 255) < 10000 * cb + 10050) /\
  (10000 * cr <= clamp_decimal (Cr_decimal 0 0 255) + 50 /\
   clamp_decimal (Cr_decimal 0 0 255) < 10000 * cr + 10050).
Proof.
  apply (reference_follows_decimal_formulas 0 0 255); lia.
Defined.

(** X11: [RGB2YCbCr_sw] gives no gray but black the neutral chroma:
    for R = G = B = g with g in 1..255 both chromas are 127, and the
    luma is g or g - 1. *)
Theorem reference_gray_chroma_is_127 (g : Z) :
  1 <= g <= 255 ->
  let '(y, cb, cr) := RGB2YCbCr_sw g g g in
  g - 1 <= y <= g /\ cb = 127 /\ cr = 127.
Proof.
  intros Hg.
  pose proof (Enumeration.all_in_range_spec 1 255
    (fun g => let '(y, cb, cr) := RGB2YCbCr_sw g g g in
              (g - 1 <=? y) && (y <=? g) && (cb =? 127) && (cr =? 127))
    ltac:(vm_compute; reflexivity) g ltac:(lia)) as H.
  cbv beta in H.
  destruct (RGB2YCbCr_sw g g g) as [[y cb] cr].
  apply andb_prop in H as [H Hcr]. apply andb_prop in H as [H Hcb].
  apply andb_prop in H as [H1 H2].
  apply Z.leb_le in H1, H2. apply Z.eqb_eq in Hcb, Hcr. auto.
Qed.

Lemma reference_gray_chroma_is_127_witness :
  let '(y, cb, cr) := RGB2YCbCr_sw 37 37 37 in
  37 - 1 <= y <= 37 /\ cb = 127 /\ cr = 127.
Proof. apply (reference_gray_chroma_is_127 37); lia. Defined.

(** X12: on the whole 8-bit range the fixed-point luma is at most 32
    below and at most 5 above the reference luma, and each fixed-point
    chroma is at most 16 below and at most 17 above the reference
    chroma. *)
Theorem converters_differ_by_at_most q (r g b : Z) :
  0 <= r <= 255 -> 0 <= g <= 255 -> 0 <= b <= 255 ->
  let out := convert_fixpt q (mkRGB r g b) in
  let '(y, cb, cr) := RGB2YCbCr_sw r g b in
  - 32 <= Y out - y <= 5 /\
  - 16 <= Cb out - cb <= 17 /\
  - 16 <= Cr out - cr <= 17.
Proof.
  intros Hr Hg Hb. unfold RGB2YCbCr_sw.
  split; [| split].
  - exact (Accuracy.Y_between _ Agreement.unit_split q r g b Hr Hg Hb).
  - exact (Accuracy.Cb_between _ Agreement.unit_split q r g b Hr Hg Hb).
  - exact (Accuracy.Cr_between _ Agreement.unit_split q r g b Hr Hg Hb).
Qed.

Lemma converters_differ_by_at_most_witness :
  let out := convert_fixpt Fixpt.AP_RND (mkRGB 255 255 0) in
  let '(y, cb, cr) := RGB2YCbCr_sw 255 255 0 in
  - 32 <= Y out - y <= 5 /\
  - 16 <= Cb out - cb <= 17 /\
  - 16 <= Cr out - cr <= 17.
Proof.
  apply (converters_differ_by_at_most Fixpt.AP_RND 255 255 0); lia.
Defined.

(** X13: the verdict of [compareAndReport] does not depend on which of
    the two values is the actual one, equal values never mismatch under
    a non-negative threshold, and raising the threshold never turns a
    match into a mismatch. *)
Theorem compareAndReport_symmetric_monotone (a b t t' : Z) (l l' : string) :
  snd (compareAndReport a b l t) = snd (compareAndReport b a l' t) /\
  (0 <= t -> compareAndReport a a l t = ([], 0)) /\
  (t <= t' -> snd (compareAndReport a b l t') <= snd (compareAndReport a b l t)).
Proof.
  rewrite !Bench.compareAndReport_flag.
  replace (Z.abs (b - a)) with (Z.abs (a - b)) by lia.
  split; [reflexivity |]. split.
  - intros Ht. unfold compareAndReport. rewrite Z.sub_diag. cbn [Z.abs].
    destruct (Z.ltb_spec t 0); [lia | reflexivity].
  - intros Ht.
    destruct (Z.ltb_spec t' (Z.abs (a - b))), (Z.ltb_spec t (Z.abs (a - b))); lia.
Qed.

(** X14: the test bench prints one mismatch line for each mismatch it
    counts, and no other line before the summary: when the loops end,
    the printed lines are all mismatch lines and their number is
    [err]. *)
Theorem printed_mismatch_lines_equal_count q (samples : list RGB) :
  exists st,
    run q samples initial = Some st /\
    mismatch_lines (printed st) = err st /\
    forallb is_mismatch_line (printed st) = true /\
    mismatch_lines (fst (report st)) = snd (report st).
Proof.
  destruct (Harness.run_lines q samples initial Bench.idle_initial)
    as (st & Hrun & _ & Hcount & Hall).
  exists st. split; [exact Hrun |].
  cbn [initial printed err] in Hcount, Hall.
  change (mismatch_lines []) with 0 in Hcount.
  assert (Hc : mismatch_lines (printed st) = err st) by lia.
  split; [exact Hc |]. split; [apply Hall; reflexivity |].
  unfold report. cbn [fst snd]. rewrite Harness.mismatch_lines_app, Hc.
  destruct (err st =? 0); cbn; lia.
Qed.

(** X15: the channels of [main] never hold more than one sample: both
    are empty after every sample, and with any positive depths in the
    place of 5 the bench prints the same lines and returns the same
    count. *)
Theorem bench_independent_of_depth q (samples : list RGB) (din dout : nat) :
  (0 < din)%nat -> (0 < dout)%nat ->
  exists st st',
    run q samples (initial_with din dout) = Some st /\
    run q samples initial = Some st' /\
    Fifo.items (input_fifo st) = [] /\ Fifo.items (output_fifo st) = [] /\
    report st = report st'.
Proof.
  intros Hin Hout.
  destruct (Harness.run_any_idle q samples (initial_with din dout) initial
              (Harness.idle_initial_with din dout Hin Hout) Bench.idle_initial
              eq_refl eq_refl)
    as (st & st' & H1 & H2 & Hidle & He & Hp).
  exists st, st'. split; [exact H1 |]. split; [exact H2 |].
  split; [apply Hidle |]. split; [apply Hidle |].
  unfold report. rewrite He, Hp. reflexivity.
Qed.

Lemma bench_independent_of_depth_witness :
  exists st st',
    run Fixpt.AP_TRN [mkRGB 1 2 3; mkRGB 255 255 255] (initial_with 1 1) = Some st /\
    run Fixpt.AP_TRN [mkRGB 1 2 3; mkRGB 255 255 255] initial = Some st' /\
    Fifo.items (input_fifo st) = [] /\ Fifo.items (output_fifo st) = [] /\
    report st = report st'.
Proof.
  apply (bench_independent_of_depth Fixpt.AP_TRN
           [mkRGB 1 2 3; mkRGB 255 255 255] 1 1); lia.
Defined.

(** X16: the three nested loops of [main] run the loop body on the
    samples of [sweep_samples], in their order, and for a bound
    [n <= 256] these are exactly the samples with R, G and B in
    0..n-1, [n^3] of them; for [n = 64] the 262144 samples with all
    three components in 0..63. *)
Theorem sweep_covers_the_cube (n : nat) (r g b : Z) :
  (n <= 256)%nat ->
  (forall q st, sweep q n st = run q (sweep_samples n) st) /\
  (In (mkRGB r g b) (sweep_samples n) <->
     0 <= r < Z.of_nat n /\ 0 <= g < Z.of_nat n /\ 0 <= b < Z.of_nat n) /\
  List.length (sweep_samples n) = (n * n * n)%nat.
Proof.
  intros Hn. split; [| split].
  - intros q st. apply Bench.sweep_is_run.
  - rewrite Harness.in_sweep_samples. split.
    + intros (r' & g' & b' & Hr & Hg & Hb & Heq).
      rewrite !Bench.ap_uint8_small in Heq by lia.
      injection Heq as -> -> ->. auto.
    + intros (Hr & Hg & Hb). exists r, g, b.
      rewrite !Bench.ap_uint8_small by lia. auto.
  - unfold sweep_samples.
    rewrite (Harness.length_flat_map_const _ (n * n)).
    + rewrite Enumeration.length_zrange. lia.
    + intros i. rewrite (Harness.length_flat_map_const _ n).
      * rewrite Enumeration.length_zrange. reflexivity.
      * intros j. rewrite length_map. apply Enumeration.length_zrange.
Qed.

Lemma sweep_covers_the_cube_witness :
  (forall q st, sweep q 64 st = run q (sweep_samples 64) st) /\
  (In (mkRGB 63 0 17) (sweep_samples 64) <->
     0 <= 63 < Z.of_nat 64 /\ 0 <= 0 < Z.of_nat 64 /\ 0 <= 17 < Z.of_nat 64) /\
  List.length (sweep_samples 64) = (64 * 64 * 64)%nat.
Proof.
  apply (sweep_covers_the_cube 64 63 0 17); lia.
Defined.
